(** * Global layer scheduling (ORNL::LayerOrderOptimizer)

    A shallow embedding of [src/optimizers/layer_order_optimizer.cpp]:
    the incremental entry point [populateStep] and the batch entry point
    [populateSteps] with its three ordering policies.

    Conventions of the embedding.
    - C++ [int] counters and indices are [nat]; a step count is the length
      of the part's list of step pairs, so no counter can overflow here.
    - [Distance] values (C++ [double] underneath) are idealised as exact
      rationals [Q]; only [<], [/ 2.0] and the tolerance test read them.
    - [QUuid] is a 128-bit value, embedded as [N]; the null id is [0].
    - A call can return, abort on a failed precondition, or (for the
      [while] loop of the by-height policy, which is run on fuel) fail to
      finish; see [Outcome].
    - The geometry classes ([Plane], [QVector3D], [QQuaternion], [Angle],
      [MathUtils]) are not part of the sources at hand and are taken as an
      interface, [Geometry]. *)

From Stdlib Require Import QArith Qabs Lqa.
From Stdlib Require SpecFloat.
From stdpp Require Import gmap list strings pretty.

(** ** Outcomes of a call *)

Inductive Outcome (A : Type) : Type :=
| Done (a : A)      (* the call returns [a] *)
| Fatal             (* a precondition check aborts the call *)
| OutOfFuel.        (* the loop was cut off before it finished *)

Arguments Done {A} a.
Arguments Fatal {A}.
Arguments OutOfFuel {A}.

#[global] Instance Outcome_ret : MRet Outcome := λ A a, Done a.

#[global] Instance Outcome_bind : MBind Outcome := λ A B k m,
  match m with
  | Done a => k a
  | Fatal => Fatal
  | OutOfFuel => OutOfFuel
  end.

(** [for (auto& x : xs) body], the body threading a state and possibly
    aborting. *)
Fixpoint for_each {A S : Type} (body : S → A → Outcome S) (xs : list A) (s : S)
  : Outcome S :=
  match xs with
  | [] => Done s
  | x :: xs' => s' ← body s x; for_each body xs' s'
  end.

(** ** Identifiers *)

Definition QUuid : Type := N.

(** [QUuid()], the null id, and [QUuid::isNull]. *)
Definition QUuid_null : QUuid := 0%N.
Definition isNull (u : QUuid) : bool := N.eqb u 0.

(** ** Geometry interface *)

Class Geometry : Type := {
  Plane : Type;
  Angle : Type;
  QVector3D : Type;
  (** [Plane()], the default-constructed plane. *)
  Plane_default : Plane;
  (** [QVector3D(0, 0, 1)]. *)
  unit_z : QVector3D;
  (** [MathUtils::CreateQuaternion(pitch, yaw, roll).rotatedVector(v)]. *)
  rotatedVector : Angle → Angle → Angle → QVector3D → QVector3D;
  (** [Plane::shiftAlongNormal(d)], as a function of the plane. *)
  shiftAlongNormal : Plane → Q → Plane;
  (** [MathUtils::linePlaneIntersection(Point(0,0,0), dir, plane).distance()]. *)
  originDistance : QVector3D → Plane → Q;
  (** [Plane::isEqual(other, epsilon)]. *)
  isEqual : Plane → Plane → Q → bool
}.

(** [a < b] on distances. *)
Definition Qlt_bool (a b : Q) : bool := negb (Qle_bool b a).

(** ** Policies and settings *)

(** The enumeration [LayerOrdering]. A stored setting can hold a value that
    is none of the three enumerators; [kUnrecognized] stands for any such
    value. *)
Inductive LayerOrdering : Type :=
| kByHeight
| kByLayerNumber
| kByPart
| kUnrecognized (raw : Z).

Definition recognized (m : LayerOrdering) : Prop :=
  match m with kUnrecognized _ => False | _ => True end.

Section Scheduler.

Context `{G : Geometry}.

(** Qt's [Q_ASSERT(cond)]: the condition is checked, and the program aborted
    when it is false, only in a build that does not define [QT_NO_DEBUG];
    in a build that defines it the macro expands to nothing. *)
Definition Q_ASSERT (QT_NO_DEBUG : bool) (cond : bool) : Outcome unit :=
  if QT_NO_DEBUG then Done tt else if cond then Done tt else Fatal.

(** The settings [populateSteps] reads from [global_sb]. *)
Record SettingsBase : Type := {
  kLayerOrdering : LayerOrdering;
  kStackingDirectionPitch : Angle;
  kStackingDirectionYaw : Angle;
  kStackingDirectionRoll : Angle;
  kLayerGroupingTolerance : Q
}.

(** ** Parts and their steps *)

(** A [Step], as far as the scheduler reads it: its slicing plane and the
    layer height of its settings. *)
Record Step : Type := {
  getSlicingPlane : Plane;
  kLayerHeight : Q
}.

Record StepPair : Type := {
  printing_layer : Step
}.

(** Modelled from the spec: class [Part] is not in the sources at hand. A
    part has an id, an ordered, index-addressable sequence of step pairs,
    and reports a list of dirty step pairs. *)
Record Part : Type := {
  getId : QUuid;
  m_step_pairs : list StepPair;
  getDirtyStepPairs : list StepPair
}.

Definition countStepPairs (p : Part) : nat := length (m_step_pairs p).

(** [Part::getStepPair(index)]; [None] outside [0 .. countStepPairs). *)
Definition getStepPair (p : Part) (index : nat) : option StepPair :=
  m_step_pairs p !! index.

(** ** GlobalLayer *)

(** Modelled from the spec: class [GlobalLayer] is not in the sources at
    hand. A global layer has a sequence index and the entries that were
    added to it. The entries are kept as a list of (part id, step pair) in
    the order they were added, so that two entries for one part can be told
    from one; [addStepPair] fails when the part already has an entry. *)
Record GlobalLayer : Type := {
  m_layer_index : nat;
  getStepPairs : list (QUuid * StepPair)
}.

(** [QSharedPointer<GlobalLayer>::create(index)]. *)
Definition GlobalLayer_create (index : nat) : GlobalLayer :=
  {| m_layer_index := index; getStepPairs := [] |}.

(** Whether the layer already has an entry for the part. *)
Definition hasPart (gl : GlobalLayer) (part_id : QUuid) : bool :=
  existsb (λ e, N.eqb (fst e) part_id) (getStepPairs gl).

(** Modelled from the spec: [GlobalLayer::addStepPair] is not in the sources
    at hand. It fails (precondition violation) if the part already has an
    entry in this layer, and adds the entry otherwise. *)
Definition addStepPair (part_id : QUuid) (step_pair : StepPair) (gl : GlobalLayer)
  : Outcome GlobalLayer :=
  if hasPart gl part_id then Fatal
  else Done {| m_layer_index := m_layer_index gl;
               getStepPairs := getStepPairs gl ++ [(part_id, step_pair)] |}.

(** Adding a list of entries one by one. *)
Definition addAll (es : list (QUuid * StepPair)) (gl : GlobalLayer)
  : Outcome GlobalLayer :=
  for_each (λ gl e, addStepPair e.1 e.2 gl) es gl.

(** ** populateStep (incremental mode) *)

Definition populateStep (build_parts : list Part) : Outcome GlobalLayer :=
  for_each
    (λ new_g_layer part,
       for_each (λ gl step_group, addStepPair (getId part) step_group gl)
                (getDirtyStepPairs part) new_g_layer)
    build_parts (GlobalLayer_create 0).

(** ** populateSteps, by height *)

(** [current_layer[part_id]] on the [QMap<QUuid, int>] of cursors. *)
Definition cursor (current_layer : gmap N nat) (part_id : QUuid) : nat :=
  default 0 (current_layer !! part_id).

(** Start each part at zero. *)
Definition init_cursors (build_parts : list Part) : gmap N nat :=
  fold_left (λ cl part, <[getId part := 0]> cl) build_parts ∅.

(** The slicing plane of a step, shifted by half its layer height. *)
Definition shiftedPlane (current_step : Step) : Plane :=
  shiftAlongNormal (getSlicingPlane current_step) (kLayerHeight current_step / 2).

(** The three locals of the minimum search. *)
Record MinSearch : Type := {
  part_with_min_plane : QUuid;
  min_plane : Plane;
  min_dist : Q
}.

Definition MinSearch_init : MinSearch :=
  {| part_with_min_plane := QUuid_null; min_plane := Plane_default; min_dist := 0 |}.

(** Body of the first inner loop: find the lowest current layer. *)
Definition find_min_body (slicing_plane : QVector3D) (current_layer : gmap N nat)
    (ms : MinSearch) (part : Part) : Outcome MinSearch :=
  let part_id := getId part in
  if decide (countStepPairs part ≤ cursor current_layer part_id) then Done ms
  else
    match getStepPair part (cursor current_layer part_id) with
    | None => Fatal
    | Some sp =>
        let layer_plane := shiftedPlane (printing_layer sp) in
        let layer_dist := originDistance slicing_plane layer_plane in
        if isNull (part_with_min_plane ms) || Qlt_bool layer_dist (min_dist ms)
        then Done {| part_with_min_plane := part_id;
                     min_plane := layer_plane;
                     min_dist := layer_dist |}
        else Done ms
    end.

(** Body of the second inner loop: group the layers equal to the lowest. *)
Definition group_body (layer_grouping_tolerance : Q) (the_min_plane : Plane)
    (acc : GlobalLayer * gmap N nat) (part : Part)
  : Outcome (GlobalLayer * gmap N nat) :=
  let part_id := getId part in
  if decide (countStepPairs part ≤ cursor acc.2 part_id) then Done acc
  else
    match getStepPair part (cursor acc.2 part_id) with
    | None => Fatal
    | Some sp =>
        let layer_plane := shiftedPlane (printing_layer sp) in
        if isEqual layer_plane the_min_plane layer_grouping_tolerance
        then
          gl ← addStepPair part_id sp acc.1;
          Done (gl, <[part_id := S (cursor acc.2 part_id)]> acc.2)
        else Done acc
    end.

(** The update of [steps_left] at the end of an iteration. *)
Definition steps_left_after (current_layer : gmap N nat) (build_parts : list Part)
  : bool :=
  fold_left
    (λ steps_left part,
       steps_left || (cursor current_layer (getId part) <? countStepPairs part))
    build_parts false.

(** One iteration of [while (steps_left)]: the minimum search, then the
    grouping pass into a new layer numbered [num_global_steps]. *)
Definition byHeight_iteration (slicing_plane : QVector3D) (tol : Q)
    (build_parts : list Part) (current_layer : gmap N nat) (num_global_steps : nat)
  : Outcome (GlobalLayer * gmap N nat) :=
  ms ← for_each (find_min_body slicing_plane current_layer) build_parts MinSearch_init;
  for_each (group_body tol (min_plane ms)) build_parts
           (GlobalLayer_create num_global_steps, current_layer).

(** The [while] loop, entered with [steps_left = true]. *)
Fixpoint byHeight_loop (fuel : nat) (slicing_plane : QVector3D) (tol : Q)
    (build_parts : list Part) (current_layer : gmap N nat) (num_global_steps : nat)
    (global_layers : list GlobalLayer) : Outcome (list GlobalLayer) :=
  match fuel with
  | O => OutOfFuel
  | S fuel' =>
      r ← byHeight_iteration slicing_plane tol build_parts current_layer
            num_global_steps;
      let global_layers' := global_layers ++ [r.1] in
      if steps_left_after r.2 build_parts
      then byHeight_loop fuel' slicing_plane tol build_parts r.2
             (S num_global_steps) global_layers'
      else Done global_layers'
  end.

Definition stackingDirection (global_sb : SettingsBase) : QVector3D :=
  rotatedVector (kStackingDirectionPitch global_sb) (kStackingDirectionYaw global_sb)
                (kStackingDirectionRoll global_sb) unit_z.

Definition populateSteps_byHeight (fuel : nat) (global_sb : SettingsBase)
    (build_parts : list Part) : Outcome (list GlobalLayer) :=
  byHeight_loop fuel (stackingDirection global_sb)
    (kLayerGroupingTolerance global_sb) build_parts (init_cursors build_parts) 0 [].

(** ** populateSteps, by layer number *)

Definition max_countStepPairs (build_parts : list Part) : nat :=
  fold_left (λ max_steps part, Nat.max max_steps (countStepPairs part)) build_parts 0.

Definition byLayerNumber_body (step : nat) (gl : GlobalLayer) (part : Part)
  : Outcome GlobalLayer :=
  if decide (step < countStepPairs part) then
    match getStepPair part step with
    | None => Fatal
    | Some sp => addStepPair (getId part) sp gl
    end
  else Done gl.

Definition populateSteps_byLayerNumber (build_parts : list Part)
  : Outcome (list GlobalLayer) :=
  let max_steps := max_countStepPairs build_parts in
  for_each
    (λ global_layers step,
       gl ← for_each (byLayerNumber_body step) build_parts (GlobalLayer_create step);
       Done (global_layers ++ [gl]))
    (seq 0 max_steps) [].

(** ** populateSteps, by part *)

Definition byPart_body (part : Part) (acc : nat * list GlobalLayer) (s : nat)
  : Outcome (nat * list GlobalLayer) :=
  match getStepPair part s with
  | None => Fatal
  | Some sp =>
      gl ← addStepPair (getId part) sp (GlobalLayer_create acc.1);
      Done (S acc.1, acc.2 ++ [gl])
  end.

Definition populateSteps_byPart (build_parts : list Part)
  : Outcome (list GlobalLayer) :=
  r ← for_each
        (λ acc part, for_each (byPart_body part) (seq 0 (countStepPairs part)) acc)
        build_parts (0, []);
  Done r.2.

(** ** populateSteps *)

Definition populateSteps (QT_NO_DEBUG : bool) (fuel : nat) (global_sb : SettingsBase)
    (build_parts : list Part) : Outcome (list GlobalLayer) :=
  match kLayerOrdering global_sb with
  | kByHeight => populateSteps_byHeight fuel global_sb build_parts
  | kByLayerNumber => populateSteps_byLayerNumber build_parts
  | kByPart => populateSteps_byPart build_parts
  | kUnrecognized _ =>
      _ ← Q_ASSERT QT_NO_DEBUG false;
      Done []
  end.

(** ** Vocabulary of the properties *)

(** The entries [(getId p, sp)] for the step pairs [sp] that [f] picks from
    each part [p], part by part in input order. *)
Definition perPart (f : Part → list StepPair) (build_parts : list Part)
  : list (QUuid * StepPair) :=
  flat_map (λ p, pair (getId p) <$> f p) build_parts.

(** The entries available from the parts: every part's step pairs, in
    index order. *)
Definition available : list Part → list (QUuid * StepPair) :=
  perPart m_step_pairs.

(** The dirty entries reported by the parts. *)
Definition dirtyPairs : list Part → list (QUuid * StepPair) :=
  perPart getDirtyStepPairs.

(** All entries of a schedule, layer after layer. *)
Definition scheduled (global_layers : list GlobalLayer) : list (QUuid * StepPair) :=
  flat_map getStepPairs global_layers.

(** The entries of one part among a list of entries, in order. *)
Definition entriesOf (part_id : QUuid) (es : list (QUuid * StepPair))
  : list (QUuid * StepPair) :=
  filter (λ e, e.1 = part_id) es.

(** The step pairs of one part as they appear across successive layers. *)
Definition stepsOf (part_id : QUuid) (global_layers : list GlobalLayer)
  : list StepPair :=
  (entriesOf part_id (scheduled global_layers)).*2.

(** No part has two entries in the layer. *)
Definition one_per_part (gl : GlobalLayer) : Prop :=
  NoDup (getStepPairs gl).*1.

(** The entries that step index [step] contributes: for each part that has
    a step pair at that index, its id with that step pair. *)
Definition stepsAt (step : nat) : list Part → list (QUuid * StepPair) :=
  perPart (λ p, option_list (getStepPair p step)).

(** The current step pair of a part, when the part is still active and its
    centre plane equals [the_min_plane] within the tolerance. *)
Definition selected (tol : Q) (the_min_plane : Plane) (current_layer : gmap N nat)
    (p : Part) : option StepPair :=
  match getStepPair p (cursor current_layer (getId p)) with
  | Some sp =>
      if isEqual (shiftedPlane (printing_layer sp)) the_min_plane tol
      then Some sp else None
  | None => None
  end.

(** The entries of the selected parts. *)
Definition grouped (tol : Q) (the_min_plane : Plane) (current_layer : gmap N nat)
  : list Part → list (QUuid * StepPair) :=
  perPart (λ p, option_list (selected tol the_min_plane current_layer p)).

(** The cursors with those of the selected parts moved on by one. *)
Definition advance (tol : Q) (the_min_plane : Plane) (current_layer : gmap N nat)
    (build_parts : list Part) (cursors : gmap N nat) : gmap N nat :=
  fold_left
    (λ c p,
       if selected tol the_min_plane current_layer p is Some _
       then <[getId p := S (cursor current_layer (getId p))]> c
       else c)
    build_parts cursors.

(** One layer per entry, numbered from [n] on. *)
Fixpoint singleLayers (n : nat) (es : list (QUuid * StepPair)) : list GlobalLayer :=
  match es with
  | [] => []
  | e :: es' => {| m_layer_index := n; getStepPairs := [e] |} :: singleLayers (S n) es'
  end.

(** A part is active when its cursor has not reached its step count. *)
Definition active (current_layer : gmap N nat) (p : Part) : Prop :=
  cursor current_layer (getId p) < countStepPairs p.

(** The unscheduled steps left, summed over the parts. *)
Definition remaining (current_layer : gmap N nat) (build_parts : list Part) : nat :=
  sum_list ((λ p, countStepPairs p - cursor current_layer (getId p)) <$> build_parts).

(** The minimum search tracks part [p] at its current step pair [sp]. *)
Definition tracks (slicing_plane : QVector3D) (current_layer : gmap N nat)
    (ms : MinSearch) (p : Part) (sp : StepPair) : Prop :=
  getStepPair p (cursor current_layer (getId p)) = Some sp ∧
  part_with_min_plane ms = getId p ∧
  min_plane ms = shiftedPlane (printing_layer sp) ∧
  min_dist ms = originDistance slicing_plane (shiftedPlane (printing_layer sp)).

(** The centre-plane distance of a step along the stacking direction. *)
Definition stepDistance (slicing_plane : QVector3D) (sp : StepPair) : Q :=
  originDistance slicing_plane (shiftedPlane (printing_layer sp)).

End Scheduler.

(** ** A concrete geometry: parallel planes *)

(** Modelled from the spec: class [Plane] and [MathUtils] are not in the
    sources at hand. By the policy's precondition all parts are sliced with
    one, non-rotating stacking direction, so a plane is given by its signed
    offset along that direction; shifting adds to the offset, the distance
    from the origin along the stacking direction is the offset, and two
    planes are equal within a tolerance when their offsets differ by at
    most the tolerance (the boundary is inclusive). *)
Module ParallelPlanes.

#[local] Open Scope Q_scope.

#[export] Instance geometry : Geometry := {|
  Plane := Q;
  Angle := unit;
  QVector3D := unit;
  Plane_default := 0;
  unit_z := tt;
  rotatedVector := λ _ _ _ v, v;
  shiftAlongNormal := λ p d, p + d;
  originDistance := λ _ p, p;
  isEqual := λ p q eps, Qle_bool (Qabs (p - q)) eps
|}.

Definition settings (m : LayerOrdering) (tol : Q) : SettingsBase :=
  {| kLayerOrdering := m;
     kStackingDirectionPitch := tt;
     kStackingDirectionYaw := tt;
     kStackingDirectionRoll := tt;
     kLayerGroupingTolerance := tol |}.

(** A step pair whose layer has height [h] and whose centre plane (the
    slicing plane shifted by [h / 2]) lies at offset [c]. *)
Definition step_at (c h : Q) : StepPair :=
  {| printing_layer := {| getSlicingPlane := c - h / 2; kLayerHeight := h |} |}.

(** A part whose layers have height [h] and the given centre offsets, with
    no dirty step pairs. *)
Definition part (id : N) (h : Q) (centres : list Q) : Part :=
  {| getId := id;
     m_step_pairs := map (λ c, step_at c h) centres;
     getDirtyStepPairs := [] |}.

(** Two parts with three and two layers, centres at 0, 1, 2 and at 0, 2. *)
Definition partA : Part := part 1%N 1 [0; 1; 2].
Definition partB : Part := part 2%N 1 [0; 2].

(** Two parts with four and two layers. *)
Definition part4 : Part := part 1%N 1 [0; 1; 2; 3].
Definition part2 : Part := part 2%N 1 [0; 1].

(** Three parts of one layer each, centres at 0, 8 and 15. *)
Definition low : Part := part 1%N 2 [0].
Definition mid : Part := part 2%N 2 [8].
Definition high : Part := part 3%N 2 [15].

(** A part that reports one dirty step pair, and one that reports two. *)
Definition one_dirty : Part :=
  {| getId := 1%N;
     m_step_pairs := [step_at 0 1];
     getDirtyStepPairs := [step_at 0 1] |}.

Definition two_dirty : Part :=
  {| getId := 2%N;
     m_step_pairs := [step_at 0 1; step_at 1 1];
     getDirtyStepPairs := [step_at 0 1; step_at 1 1] |}.

End ParallelPlanes.

(** ** Vocabulary of further properties of the scheduler *)

Section SchedulerOrder.

Context `{G : Geometry}.

(** The centre-plane distances of the part's step pairs do not decrease
    with the step index. *)
Definition ascending (slicing_plane : QVector3D) (p : Part) : Prop :=
  ∀ i j si sj,
    i ≤ j → getStepPair p i = Some si → getStepPair p j = Some sj →
    (stepDistance slicing_plane si <= stepDistance slicing_plane sj)%Q.

(** At every step index the centre planes of the parts that have a step
    pair there are equal to each other within the tolerance. *)
Definition aligned (tol : Q) (build_parts : list Part) : Prop :=
  ∀ k p q sp sq,
    p ∈ build_parts → q ∈ build_parts →
    getStepPair p k = Some sp → getStepPair q k = Some sq →
    isEqual (shiftedPlane (printing_layer sp)) (shiftedPlane (printing_layer sq)) tol
    = true.

(** Two layers with the same sequence index and the same entries, in
    whatever order the entries were added. *)
Definition same_layer (gl gl' : GlobalLayer) : Prop :=
  m_layer_index gl = m_layer_index gl' ∧ getStepPairs gl ≡ₚ getStepPairs gl'.

(** The layer that the by-layer-number policy builds for a step index. *)
Definition layerAt (build_parts : list Part) (step : nat) : GlobalLayer :=
  {| m_layer_index := step; getStepPairs := stepsAt step build_parts |}.

End SchedulerOrder.

(** * Infill sectors (ORNL::InfillSector)

    The region of a layer that is filled sector by sector, from
    [step/layer/regions/infill_sector.cpp]: [uniform], [createPath],
    [compute] and [writeGCode]. *)

Module InfillSector.

(** The geometry, the pattern generators and the G-code writer that the
    region calls are not part of the sources at hand and are taken as an
    interface. A [Polyline] is a vector of points. *)
Class Toolkit : Type := {
  Point : Type;
  PolygonList : Type;
  RegionType : Type;
  (** [RegionType::kInfill]. *)
  kInfill : RegionType;
  (** [Point()] and [Point(x, y)]. *)
  Point_default : Point;
  Point_xy : Q → Q → Point;
  (** [Polyline::reverse()]. *)
  Polyline_reverse : list Point → list Point;
  (** [PolygonList::offset(d)]. *)
  PolygonList_offset : PolygonList → Q → PolygonList;
  (** [MathUtils::internalAngle(a, b, c)]. *)
  internalAngle : Point → Point → Point → Q;
  (** The generators of [PatternGenerator]. *)
  GenerateLines : PolygonList → Q → Q → bool → Point → Point → list (list Point);
  GenerateGrid : PolygonList → Q → Q → bool → Point → Point → list (list Point);
  GenerateConcentric : PolygonList → Q → Q → list (list Point);
  GenerateTriangles : PolygonList → Q → Q → bool → Point → Point → list (list Point);
  GenerateHexagonsAndTriangles :
    PolygonList → Q → Q → bool → Point → Point → list (list Point);
  GenerateHoneyComb :
    PolygonList → Q → Q → Q → bool → Point → Point → list (list Point);
  GenerateRadialHatch : PolygonList → Point → Q → Q → Q → list (list Point);
  (** [WriterBase::writeBeforeRegion], [writeAfterPath], [writeEmptyStep]. *)
  writeBeforeRegion : RegionType → nat → string;
  writeAfterPath : RegionType → string;
  writeEmptyStep : string
}.

(** The enumeration [InfillPatterns], read from an [int] setting by a
    [static_cast]; [kOtherPattern] stands for a value that is none of the
    enumerators the [switch] of [compute] names. *)
Inductive InfillPatterns : Type :=
| kLines
| kGrid
| kConcentric
| kTriangles
| kHexagonsAndTriangles
| kHoneycomb
| kRadialHatch
| kOtherPattern (raw : Z).

(** A [Polyline] is a vector of points. *)
Abbreviation Polyline := (list Point).

Section Region.

Context `{T : Toolkit}.


(** The settings of [m_sb] that the region reads. *)
Record RegionSettings : Type := {
  kXOffset : Q;
  kYOffset : Q;
  kPattern : InfillPatterns;
  kLineSpacing : Q;
  kBeadWidth : Q;
  kAngle : Q;
  kBasedOnPrinter : bool;
  kXMin : Q;
  kYMin : Q;
  kXMax : Q;
  kYMax : Q;
  kOverlap : Q;
  kLayerHeight : Q;
  kSpeed : Q;
  kAccelerationInfill : Q;
  kExtruderSpeed : Q
}.

(** The settings [createPath] sets on a segment, under
    [Constants::SegmentSettings]. *)
Record SegmentSettings : Type := {
  kWidth : Q;
  kHeight : Q;
  kSegmentSpeed : Q;
  kAccel : Q;
  kSegmentExtruderSpeed : Q;
  kRegionType : RegionType
}.

(** A [LineSegment] from [start] to [end], with its settings. *)
Record LineSegment : Type := {
  seg_start : Point;
  seg_end : Point;
  seg_sb : SegmentSettings
}.

(** A [Path], as far as the region uses it: its segments in order. *)
#[local] Abbreviation Path := (list LineSegment).

(** The members of the region that the functions read and write. *)
Record Sector : Type := {
  m_sb : RegionSettings;
  m_geometry : PolygonList;
  m_computed_geometry : list Polyline;
  m_paths : list Path;
  m_sector_angle : Q;
  m_start_vec : Point
}.

(** ** uniform *)

(** [for (int i = 1, end = sector.size(); i < end; i += 2)
      sector[i] = sector[i].reverse();]
    run on fuel; [sector.size()] iterations are more than the loop makes. *)
Fixpoint uniform_loop (fuel i : nat) (sector : list Polyline) : list Polyline :=
  match fuel with
  | O => sector
  | S fuel' =>
      if decide (i < length sector)
      then uniform_loop fuel' (i + 2) (alter Polyline_reverse i sector)
      else sector
  end.

Definition uniform (sector : list Polyline) : list Polyline :=
  uniform_loop (length sector) 1 sector.

(** ** createPath *)

(** The settings that [createPath] sets on every segment. *)
Definition infillSettings (sb : RegionSettings) : SegmentSettings :=
  {| kWidth := kBeadWidth sb;
     kHeight := kLayerHeight sb;
     kSegmentSpeed := kSpeed sb;
     kAccel := kAccelerationInfill sb;
     kSegmentExtruderSpeed := kExtruderSpeed sb;
     kRegionType := kInfill |}.

(** The segment that [createPath] builds between two points. *)
Definition infillSegment (sb : RegionSettings) (a b : Point) : LineSegment :=
  {| seg_start := a; seg_end := b; seg_sb := infillSettings sb |}.

(** The segment between the points at [i] and [i + 1] of a line. *)
Definition segmentAt (sb : RegionSettings) (line : Polyline) (i : nat)
  : option LineSegment :=
  match line !! i, line !! (i + 1) with
  | Some a, Some b => Some (infillSegment sb a b)
  | _, _ => None
  end.

(** [for (int i = 0, end = line.size() - 1; i < end; ++i)]: for an empty
    line the C++ bound is -1 and the truncated subtraction gives 0; either
    way the body does not run. [line[i]] and [line[i + 1]] are inside the
    line for every [i] below the bound. *)
Definition createPath (sb : RegionSettings) (line : Polyline) : Path :=
  fold_left
    (λ newPath i,
       match segmentAt sb line i with
       | Some segment => newPath ++ [segment]
       | None => newPath
       end)
    (seq 0 (length line - 1)) [].

(** ** compute *)

(** The [switch] over the infill pattern: the geometry a generator returns,
    or [None] when no [case] applies and [m_computed_geometry] is left as
    it was. *)
Definition generate (s : Sector) : option (list Polyline) :=
  let sb := m_sb s in
  let center := Point_xy (kXOffset sb) (kYOffset sb) in
  let lineSpacing := kLineSpacing sb in
  let hatchBeadWidth := kBeadWidth sb in
  let infillAngle := kAngle sb in
  let globalPrinterArea := kBasedOnPrinter sb in
  let min := if globalPrinterArea then Point_xy (kXMin sb) (kYMin sb) else Point_default in
  let max := if globalPrinterArea then Point_xy (kXMax sb) (kYMax sb) else Point_default in
  let geometry_copy := PolygonList_offset (m_geometry s) (kOverlap sb) in
  match kPattern sb with
  | kLines =>
      Some (GenerateLines geometry_copy lineSpacing infillAngle globalPrinterArea min max)
  | kGrid =>
      Some (GenerateGrid geometry_copy lineSpacing infillAngle globalPrinterArea min max)
  | kConcentric =>
      Some (GenerateConcentric geometry_copy hatchBeadWidth lineSpacing)
  | kTriangles =>
      Some (GenerateTriangles geometry_copy lineSpacing infillAngle globalPrinterArea
              min max)
  | kHexagonsAndTriangles =>
      Some (GenerateHexagonsAndTriangles geometry_copy lineSpacing infillAngle
              globalPrinterArea min max)
  | kHoneycomb =>
      Some (GenerateHoneyComb geometry_copy hatchBeadWidth lineSpacing infillAngle
              globalPrinterArea min max)
  | kRadialHatch =>
      Some (GenerateRadialHatch geometry_copy center lineSpacing (m_sector_angle s)
              infillAngle)
  | kOtherPattern _ => None
  end.

(** The body of the first loop over the computed lines: a line whose end
    makes a smaller angle than its start is reversed. [QVector::first()] and
    [last()] require a non-empty vector; on an empty line the call is taken
    to abort. *)
Definition orient (center start_vec : Point) (line : Polyline) : Outcome Polyline :=
  match head line, last line with
  | Some first, Some last_ =>
      let ang1 := internalAngle first center start_vec in
      let ang2 := internalAngle last_ center start_vec in
      Done (if Qlt_bool ang2 ang1 then Polyline_reverse line else line)
  | _, _ => Fatal
  end.

(** The body of the second loop, which fills [circularOrder]: the vector is
    not used afterwards, but [line.first()] is called on every line. *)
Definition circularOrder_body (_ : unit) (line : Polyline) : Outcome unit :=
  match head line with
  | Some _ => Done tt
  | None => Fatal
  end.

Definition compute (s : Sector) : Outcome Sector :=
  let sb := m_sb s in
  let center := Point_xy (kXOffset sb) (kYOffset sb) in
  let computed := default (m_computed_geometry s) (generate s) in
  oriented ← for_each
                (λ done line, line' ← orient center (m_start_vec s) line;
                              Done (done ++ [line']))
                computed [];
  _ ← for_each circularOrder_body oriented tt;
  let final := uniform (reverse oriented) in
  Done {| m_sb := sb;
          m_geometry := m_geometry s;
          m_computed_geometry := final;
          m_paths := createPath sb <$> final;
          m_sector_angle := m_sector_angle s;
          m_start_vec := m_start_vec s |}.

(** ** writeGCode *)

(** [segment->writeGCode(writer)] of a line segment is part of the writer
    and segment code that is not at hand; it is a parameter here. *)
Definition writeGCode (segment_writeGCode : LineSegment → string) (s : Sector)
  : string :=
  if decide (0 < length (m_paths s)) then
    let gcode := writeBeforeRegion kInfill (length (m_paths s)) in
    let gcode :=
      fold_left
        (λ gcode path,
           fold_left (λ gcode segment, gcode +:+ segment_writeGCode segment) path gcode)
        (m_paths s) gcode in
    gcode +:+ writeAfterPath kInfill
  else writeEmptyStep.

End Region.

Abbreviation Path := (list LineSegment).

(** A small toolkit to run the region on: points on a line, polylines
    reversed as lists, generators that return fixed lines. *)
Module Toy.

#[local] Open Scope Q_scope.

#[export] Instance toolkit : Toolkit := {|
  Point := Z;
  PolygonList := unit;
  RegionType := bool;
  kInfill := true;
  Point_default := 0%Z;
  Point_xy := λ x _, Qnum x;
  Polyline_reverse := reverse;
  PolygonList_offset := λ g _, g;
  internalAngle := λ a _ _, inject_Z a;
  GenerateLines := λ _ _ _ _ _ _, [[1; 2; 3]; [9; 8]; [4; 5; 6; 7]]%Z;
  GenerateGrid := λ _ _ _ _ _ _, [];
  GenerateConcentric := λ _ _ _, [[1; 2]]%Z;
  GenerateTriangles := λ _ _ _ _ _ _, [];
  GenerateHexagonsAndTriangles := λ _ _ _ _ _ _, [];
  GenerateHoneyComb := λ _ _ _ _ _ _ _, [];
  GenerateRadialHatch := λ _ _ _ _ _, [];
  writeBeforeRegion := λ _ _, "BEFORE"%string;
  writeAfterPath := λ _, "AFTER"%string;
  writeEmptyStep := "EMPTY"%string
|}.

Definition settings (pattern : InfillPatterns) : RegionSettings :=
  {| kXOffset := 0; kYOffset := 0; kPattern := pattern; kLineSpacing := 1;
     kBeadWidth := 2; kAngle := 0; kBasedOnPrinter := false;
     kXMin := 0; kYMin := 0; kXMax := 10; kYMax := 10; kOverlap := 0;
     kLayerHeight := 1; kSpeed := 5; kAccelerationInfill := 1;
     kExtruderSpeed := 1 |}.

Definition sector (pattern : InfillPatterns) : Sector :=
  {| m_sb := settings pattern;
     m_geometry := tt;
     m_computed_geometry := [];
     m_paths := [];
     m_sector_angle := 0;
     m_start_vec := 0%Z |}.

End Toy.

End InfillSector.

(** * The printer control panel (ORNL::PrinterControlWidget)

    The slots of [widgets/PrinterControlWidget.cpp] and the communicator
    they talk to, [ORNL::PrinterCommunicator]. The widget and its
    communicator live in one thread, so an emitted signal runs the connected
    slot before [emit] returns. *)

Module PrinterControl.

(** [QString(fmt).arg(a)] for a format [fmt] that ends in its only place
    marker, [%1]: the text before the marker followed by [a]. *)
Definition arg (before_marker a : string) : string := before_marker +:+ a.

(** ** PrinterCommunicator *)

(** [mockPrinterCommunication]: the [printerResponse] signals it emits. *)
Definition mockPrinterCommunication (command : string) : list string :=
  let response := arg "Printer executed command: " command in
  [response].

(** [sendCommand]: the [printerResponse] signals emitted while it runs. *)
Definition sendCommand (command : string) : list string :=
  mockPrinterCommunication command.

(** ** PrinterControlWidget *)

(** The texts of the three line edits and the paragraphs of the log. *)
Record Widget : Type := {
  m_xInput : string;
  m_yInput : string;
  m_zInput : string;
  m_logDisplay : list string
}.

(** [m_logDisplay->append(text)]. *)
Definition log_append (w : Widget) (text : string) : Widget :=
  {| m_xInput := m_xInput w; m_yInput := m_yInput w; m_zInput := m_zInput w;
     m_logDisplay := m_logDisplay w ++ [text] |}.

Definition onPrinterResponse (w : Widget) (response : string) : Widget :=
  log_append w response.

(** [emit sendCommandToPrinter(command)]: the signal is connected to
    [PrinterCommunicator::sendCommand], whose [printerResponse] signal is
    connected to [onPrinterResponse]. *)
Definition sendCommandToPrinter (w : Widget) (command : string) : Widget :=
  fold_left onPrinterResponse (sendCommand command) w.

Definition moveX (w : Widget) : Widget :=
  let command := arg "G1 X" (m_xInput w) in
  sendCommandToPrinter w command.

Definition moveY (w : Widget) : Widget :=
  let command := arg "G1 Y" (m_yInput w) in
  sendCommandToPrinter w command.

Definition moveZ (w : Widget) : Widget :=
  let command := arg "G1 Z" (m_zInput w) in
  sendCommandToPrinter w command.

Definition homePrinter (w : Widget) : Widget :=
  let command := "G28"%string in
  sendCommandToPrinter w command.

Definition startPrint (w : Widget) : Widget :=
  let w := sendCommandToPrinter w "M140 S60" in
  log_append w "Starting print...".

Definition stopPrint (w : Widget) : Widget :=
  let w := sendCommandToPrinter w "M112" in
  log_append w "Stopping print...".

(** The slots a button of the panel is connected to. *)
Inductive Slot : Type :=
| MoveX | MoveY | MoveZ | HomePrinter | StartPrint | StopPrint.

Definition click (slot : Slot) (w : Widget) : Widget :=
  match slot with
  | MoveX => moveX w
  | MoveY => moveY w
  | MoveZ => moveZ w
  | HomePrinter => homePrinter w
  | StartPrint => startPrint w
  | StopPrint => stopPrint w
  end.

(** The command a slot sends, and the line it logs after the response. *)
Definition command_of (slot : Slot) (w : Widget) : string :=
  match slot with
  | MoveX => "G1 X" +:+ m_xInput w
  | MoveY => "G1 Y" +:+ m_yInput w
  | MoveZ => "G1 Z" +:+ m_zInput w
  | HomePrinter => "G28"
  | StartPrint => "M140 S60"
  | StopPrint => "M112"
  end.

Definition status_of (slot : Slot) : list string :=
  match slot with
  | StartPrint => ["Starting print..."%string]
  | StopPrint => ["Stopping print..."%string]
  | _ => []
  end.

(** ** Temperature *)

(** A C++ [double] is an IEEE 754 binary64 number (53 bits of precision,
    exponents up to 1024), and every operation rounds its exact result once,
    to the nearest number, ties to even. *)
Definition double : Type := SpecFloat.spec_float.

(** [static_cast<double>(n)], and a literal such as [20.0] or [100.0] whose
    value is the integer [n]. *)
Definition double_of_int (n : Z) : double :=
  SpecFloat.binary_normalize 53 1024 n 0 false.

Definition double_add : double → double → double := SpecFloat.SFadd 53 1024.
Definition double_div : double → double → double := SpecFloat.SFdiv 53 1024.

(** The rational number that a finite [double] stands for. *)
Definition double_value (x : double) : option Q :=
  match x with
  | SpecFloat.S754_zero _ => Some 0%Q
  | SpecFloat.S754_finite s m e =>
      Some (inject_Z (SpecFloat.cond_Zopp s (Z.pos m)) * Qpower 2 e)%Q
  | _ => None
  end.

(** [getHardwareTemperature], as a function of the value [qrand()] returns:
    [20.0 + static_cast<double>(qrand() % 6000) / 100.0]. The C++ [%]
    truncates towards zero, as [Z.rem] does. *)
Definition getHardwareTemperature (qrand : Z) : double :=
  double_add (double_of_int 20)
    (double_div (double_of_int (Z.rem qrand 6000)) (double_of_int 100)).

(** The test that the temperature for a remainder is a finite number from
    20 up to, but not including, 80, and within 10^-13 of 20 plus the
    remainder in hundredths. *)
Definition temperature_in_range (remainder : Z) : bool :=
  match double_value (getHardwareTemperature remainder) with
  | Some t =>
      Qle_bool 20 t && negb (Qle_bool 80 t)
      && Qle_bool (Qabs (t - (20 + inject_Z remainder / 100))) (1 # 10000000000000)
  | None => false
  end.

End PrinterControl.

(** * Loading meshes (ORNL::MeshLoader)

    [MeshLoader::LoadMeshes] and [MeshLoader::run] of
    [threading/mesh_loader.cpp]. *)

Module MeshLoader.

(** The file system, the Assimp importer, the mesh classes, the matrix class
    and the managers that the loader calls are not part of the sources at
    hand and are taken as an interface. A raw-data pointer is a number, 0
    for [nullptr]. *)
Class Env : Type := {
  aiMesh : Type;
  mNumFaces : aiMesh → nat;
  mNumVertices : aiMesh → nat;
  Polyhedron : Type;
  SurfaceMesh : Type;
  QMatrix4x4 : Type;
  QVector3D : Type;
  MeshType : Type;
  Distance : Type;
  (** [QFileInfo]: [exists], [absoluteFilePath], [suffix], [baseName],
      [fileName] of a path. *)
  file_exists : string → bool;
  absoluteFilePath : string → string;
  suffix : string → string;
  baseName : string → string;
  fileName : string → string;
  (** [LoadRawData(path)], which reads the file through C stdio: the
      pointer and the size it returns. *)
  LoadRawData : string → N * N;
  (** [Assimp::Importer::ReadFileFromMemory(data, size, flags, hint)]: the
      flags are always drop-normals, join-identical-vertices and
      sort-by-type, with or without triangulate; the scene's meshes, or
      [None] for a null scene. *)
  ReadFileFromMemory : N → N → bool → option string → option (list aiMesh);
  (** The polyhedron built from a mesh by [MeshBuilderAssimp], cleaned when
      asked to, and whether the builder reported an error or the polyhedron
      is not closed. *)
  buildPolyhedron : aiMesh → bool → Polyhedron;
  builder_failed_or_open : aiMesh → bool → bool;
  BuildSurfaceMesh : aiMesh → SurfaceMesh;
  (** [MeshBase::originalCentroid()] of a mesh made from that body. *)
  centroid_closed : Polyhedron → QVector3D;
  centroid_open : SurfaceMesh → QVector3D;
  (** [QMatrix4x4::isIdentity], [scale(QVector3D(c, c, c))], [translate]. *)
  isIdentity : QMatrix4x4 → bool;
  scale : QMatrix4x4 → Q → QMatrix4x4;
  translate : QMatrix4x4 → QVector3D → QMatrix4x4;
  (** [Distance conv(unit); conv = conv.to(mm); conv()]. *)
  conv_to_mm : Distance → Q;
  (** [QString::number(int)]. *)
  QString_number : nat → string;
  (** The global setting [kEnableFixModel] and
      [PM->getUseImplicitTransforms()]. *)
  kEnableFixModel : bool;
  getUseImplicitTransforms : bool
}.

Section Loader.

Context `{E : Env}.

(** A mesh as the loader leaves it: the body it was created from (a closed
    mesh from a polyhedron, or an open mesh from a surface mesh, on which
    [shortestPath()] is called), its name and file name, and what the
    loader set on it with [setType], [setUnit] and [setTransformation]; a
    mesh is always centred about itself. *)
Record MeshBase : Type := {
  mesh_body : Polyhedron + SurfaceMesh;
  mesh_name : string;
  mesh_file : string;
  mesh_type : MeshType;
  mesh_unit : option Distance;
  mesh_transformation : QMatrix4x4
}.

(** [MeshLoader::MeshData]. *)
Record MeshData : Type := {
  mesh : MeshBase;
  raw_data : N;
  size : N
}.

(** The scene the importer returns for the suffix of the file. *)
Definition importScene (model_type : string) (file_data : N * N)
  : option (list aiMesh) :=
  if decide (model_type = "stl" ∨ model_type = "STL") then
    ReadFileFromMemory file_data.1 file_data.2 false (Some "stl")
  else if decide (model_type = "3mf" ∨ model_type = "3MF") then
    ReadFileFromMemory file_data.1 file_data.2 false (Some "3mf")
  else if decide (model_type = "obj" ∨ model_type = "OBJ") then
    ReadFileFromMemory file_data.1 file_data.2 true (Some "obj")
  else if decide (model_type = "amf" ∨ model_type = "AMF") then
    ReadFileFromMemory file_data.1 file_data.2 true (Some "amf")
  else
    ReadFileFromMemory file_data.1 file_data.2 false None.

(** The state of the loop over the meshes of the scene: the meshes loaded so
    far, the counter [num_models_added] and the local [transform]. *)
Record LoopState : Type := {
  loaded_meshes : list MeshData;
  num_models_added : nat;
  transform : QMatrix4x4
}.

(** The body a mesh is created from: a closed mesh is tried first; when the
    builder reports an error or the polyhedron is not closed, a surface mesh
    is built. *)
Definition meshBody (m : aiMesh) : Polyhedron + SurfaceMesh :=
  if builder_failed_or_open m kEnableFixModel
  then inr (BuildSurfaceMesh m)
  else inl (buildPolyhedron m kEnableFixModel).

(** The name of the next mesh: the base name of the file, followed by an
    underscore and the number of meshes added so far when the scene has
    more than one mesh. *)
Definition meshName (file_path : string) (mNumMeshes added : nat) : string :=
  let name := baseName file_path in
  if decide (1 < mNumMeshes) then name +:+ "_" +:+ QString_number added else name.

(** The transform after a mesh was handled: when it was the identity it is
    scaled to the unit and, with implicit transforms, moved to the centroid
    of the mesh. *)
Definition nextTransform (unit : Distance) (t : QMatrix4x4) (m : aiMesh) : QMatrix4x4 :=
  let center :=
    match meshBody m with
    | inl polyhedron => centroid_closed polyhedron
    | inr sm => centroid_open sm
    end in
  if isIdentity t then
    let scaled := scale t (conv_to_mm unit) in
    if getUseImplicitTransforms then translate scaled center else scaled
  else t.

(** The body of the loop, for one mesh of the scene. *)
Definition loadMesh (file_path : string) (mt : MeshType) (unit : Distance)
    (file_data : N * N) (mNumMeshes : nat) (st : LoopState) (m : aiMesh)
  : LoopState :=
  if decide (0 < mNumFaces m ∧ 0 < mNumVertices m) then
    let new_mesh :=
      {| mesh_body := meshBody m;
         mesh_name := meshName file_path mNumMeshes (num_models_added st);
         mesh_file := fileName file_path;
         mesh_type := mt;
         mesh_unit := if isIdentity (transform st) then Some unit else None;
         mesh_transformation := nextTransform unit (transform st) m |} in
    {| loaded_meshes :=
         loaded_meshes st
         ++ [{| mesh := new_mesh; raw_data := file_data.1; size := file_data.2 |}];
       num_models_added := S (num_models_added st);
       transform := nextTransform unit (transform st) m |}
  else st.

(** The loop over the meshes of a scene ([HasMeshes()] is false exactly for
    a scene without meshes, on which the loop does nothing). *)
Definition loadScene (file_path : string) (mt : MeshType) (transform0 : QMatrix4x4)
    (unit : Distance) (file_data : N * N) (scene : list aiMesh) : list MeshData :=
  loaded_meshes
    (fold_left (loadMesh file_path mt unit file_data (length scene)) scene
       {| loaded_meshes := []; num_models_added := 0; transform := transform0 |}).

Definition LoadMeshes (file_path : string) (mt : MeshType) (transform0 : QMatrix4x4)
    (unit : Distance) (raw_data0 file_size : N) : list MeshData :=
  if decide (raw_data0 = 0%N ∨ file_size = 0%N) then
    if file_exists file_path then
      let file_data := LoadRawData (absoluteFilePath file_path) in
      match importScene (suffix file_path) file_data with
      | None => []
      | Some scene => loadScene file_path mt transform0 unit file_data scene
      end
    else []
  else
    let file_data := (raw_data0, file_size) in
    match importScene (suffix file_path) file_data with
    | None => []
    | Some scene => loadScene file_path mt transform0 unit file_data scene
    end.

(** The signals of the loader thread. *)
Inductive Signal : Type :=
| error (msg : string)
| newMesh (data : MeshData).

(** [MeshLoader::run]: the signals it emits, in order. *)
Definition run (m_file_path : string) (m_mesh_type : MeshType)
    (m_transform : QMatrix4x4) (m_unit : Distance) : list Signal :=
  let meshes := LoadMeshes m_file_path m_mesh_type m_transform m_unit 0 0 in
  (match meshes with
   | [] => [error ("Error importing mesh: " +:+ fileName m_file_path)]
   | _ => []
   end)
  ++ (newMesh <$> meshes).

(** The meshes of a scene that the loader takes: those with faces and
    vertices. *)
Definition loadable (scene : list aiMesh) : list aiMesh :=
  filter (λ m, 0 < mNumFaces m ∧ 0 < mNumVertices m) scene.

End Loader.

(** A small environment to run the loader on: a mesh is its numbers of
    faces and vertices, a matrix is a number with 1 for the identity, every
    file exists and holds three meshes, the second of them without faces. *)
Module Toy.

#[local] Open Scope Q_scope.

#[export] Instance env : Env := {|
  aiMesh := nat * nat;
  mNumFaces := fst;
  mNumVertices := snd;
  Polyhedron := nat;
  SurfaceMesh := nat;
  QMatrix4x4 := Q;
  QVector3D := Q;
  MeshType := unit;
  Distance := Q;
  file_exists := λ _, true;
  absoluteFilePath := λ path, path;
  suffix := λ _, "stl"%string;
  baseName := λ _, "part"%string;
  fileName := λ _, "part.stl"%string;
  LoadRawData := λ _, (1%N, 100%N);
  ReadFileFromMemory := λ _ _ _ _, Some [(12, 8); (0, 5); (4, 4)]%nat;
  buildPolyhedron := λ m _, m.1;
  builder_failed_or_open := λ m _, Nat.even m.1;
  BuildSurfaceMesh := λ m, m.2;
  centroid_closed := λ _, 3;
  centroid_open := λ _, 5;
  isIdentity := λ t, Qeq_bool t 1;
  scale := λ t c, t * c;
  translate := λ t v, t + v;
  conv_to_mm := λ u, u;
  QString_number := pretty;
  kEnableFixModel := false;
  getUseImplicitTransforms := true
|}.

End Toy.

End MeshLoader.

(** * Properties *)

Section SchedulerFacts.

Context `{G : Geometry}.

Implicit Types (p part : Part) (gl : GlobalLayer) (cl : gmap N nat).
Implicit Types (es : list (QUuid * StepPair)) (parts : list Part).

(** ** Loops *)

Lemma for_each_app {A S : Type} (body : S → A → Outcome S) (xs ys : list A) (s : S) :
  for_each body (xs ++ ys) s = s' ← for_each body xs s; for_each body ys s'.
Proof.
  revert s. induction xs as [|x xs IH]; intros s; simpl; [done|].
  destruct (body s x); simpl; auto.
Qed.

(** A property kept by every returning run of the body is kept by the loop. *)
Lemma for_each_invariant {A S : Type} (P : S → Prop) (body : S → A → Outcome S)
    (xs : list A) (s s' : S) :
  (∀ s1 x s2, x ∈ xs → P s1 → body s1 x = Done s2 → P s2) →
  P s → for_each body xs s = Done s' → P s'.
Proof.
  revert s. induction xs as [|x xs IH]; intros s Hbody Hs Hrun; simpl in Hrun.
  - by injection Hrun as <-.
  - destruct (body s x) as [s1| |] eqn:Hx; simpl in Hrun; try done.
    apply (IH s1); [|eapply Hbody; [left|done|done]|done].
    intros ? y ? Hy. apply Hbody. by right.
Qed.

(** ** addStepPair *)

Lemma hasPart_true gl k : hasPart gl k = true ↔ k ∈ (getStepPairs gl).*1.
Proof.
  unfold hasPart. rewrite existsb_exists, list_elem_of_fmap.
  split.
  - intros ([k' sp] & Hin & Hk). apply N.eqb_eq in Hk. simpl in Hk. subst.
    exists (k, sp). split; [done|]. by apply list_elem_of_In.
  - intros ([k' sp] & -> & Hin). exists (k', sp).
    split; [by apply list_elem_of_In|]. apply N.eqb_refl.
Qed.

Lemma hasPart_false gl k : hasPart gl k = false ↔ k ∉ (getStepPairs gl).*1.
Proof.
  rewrite <- hasPart_true. destruct (hasPart gl k); split; congruence.
Qed.

Lemma addStepPair_Done k sp gl gl' :
  addStepPair k sp gl = Done gl' ↔
  (k ∉ (getStepPairs gl).*1) ∧
  gl' = {| m_layer_index := m_layer_index gl;
           getStepPairs := getStepPairs gl ++ [(k, sp)] |}.
Proof.
  unfold addStepPair. rewrite <- hasPart_false.
  destruct (hasPart gl k); split; try (intros [? ?]); try congruence.
  split; congruence.
Qed.

Lemma addStepPair_not_OutOfFuel k sp gl : addStepPair k sp gl ≠ OutOfFuel.
Proof. unfold addStepPair. by destruct (hasPart gl k). Qed.

Lemma addStepPair_one_per_part k sp gl gl' :
  one_per_part gl → addStepPair k sp gl = Done gl' → one_per_part gl'.
Proof.
  unfold one_per_part. intros Hnd [Hk ->]%addStepPair_Done. simpl.
  rewrite fmap_app. apply NoDup_app. split_and!; [done| |apply NoDup_singleton].
  intros x Hx [->|[]%elem_of_nil]%elem_of_cons. done.
Qed.

Lemma create_one_per_part i : one_per_part (GlobalLayer_create i).
Proof. apply NoDup_nil_2. Qed.

Lemma addAll_spec es gl :
  one_per_part gl →
  addAll es gl =
    if decide (NoDup (getStepPairs gl ++ es).*1)
    then Done {| m_layer_index := m_layer_index gl;
                 getStepPairs := getStepPairs gl ++ es |}
    else Fatal.
Proof.
  unfold addAll. revert gl. induction es as [|[k sp] es IH]; intros gl Hgl; simpl.
  - rewrite app_nil_r. rewrite decide_True by done. by destruct gl.
  - destruct (addStepPair k sp gl) as [gl1| |] eqn:Hadd; simpl.
    + pose proof (addStepPair_one_per_part _ _ _ _ Hgl Hadd) as Hgl1.
      apply addStepPair_Done in Hadd as [Hk ->]. rewrite IH by done. simpl.
      by rewrite <- app_assoc.
    + rewrite decide_False; [done|]. intros Hnd.
      rewrite fmap_app in Hnd. apply NoDup_app in Hnd as (_ & Hdisj & _).
      assert (k ∉ (getStepPairs gl).*1) as Hk.
      { intros Hin. apply (Hdisj k Hin). simpl. left. }
      assert (addStepPair k sp gl = Done
        {| m_layer_index := m_layer_index gl;
           getStepPairs := getStepPairs gl ++ [(k, sp)] |}) as Hd
        by by apply addStepPair_Done.
      congruence.
    + by apply addStepPair_not_OutOfFuel in Hadd.
Qed.

Lemma bind_Done {A B : Type} (m : Outcome A) (k : A → Outcome B) (b : B) :
  m ≫= k = Done b ↔ ∃ a, m = Done a ∧ k a = Done b.
Proof.
  destruct m; simpl; split; try done; try (by intros (? & ? & ?)); eauto.
  by intros (? & [= <-] & ?).
Qed.

Lemma for_each_nested {A B C S : Type} (f : A → list B) (g : A → B → C)
    (body : S → C → Outcome S) (xs : list A) (s : S) :
  for_each (λ s x, for_each (λ s b, body s (g x b)) (f x) s) xs s =
  for_each body (flat_map (λ x, g x <$> f x) xs) s.
Proof.
  revert s. induction xs as [|x xs IH]; intros s; simpl; [done|].
  rewrite for_each_app.
  assert (∀ l s, for_each (λ s b, body s (g x b)) l s = for_each body (g x <$> l) s)
    as ->.
  { clear. induction l as [|b l IH]; intros s; simpl; [done|].
    destruct (body s (g x b)); simpl; auto. }
  destruct (for_each body (g x <$> f x) s); simpl; auto.
Qed.

(** ** populateStep *)

Lemma populateStep_addAll parts :
  populateStep parts = addAll (dirtyPairs parts) (GlobalLayer_create 0).
Proof.
  unfold populateStep, addAll, dirtyPairs, perPart.
  by rewrite <- (for_each_nested getDirtyStepPairs (λ p sp, (getId p, sp))
                  (λ gl e, addStepPair e.1 e.2 gl)).
Qed.

Lemma populateStep_spec parts :
  populateStep parts =
    if decide (NoDup (dirtyPairs parts).*1)
    then Done {| m_layer_index := 0; getStepPairs := dirtyPairs parts |}
    else Fatal.
Proof.
  rewrite populateStep_addAll, addAll_spec by apply create_one_per_part. done.
Qed.

(** ** Layers hold one entry per part *)

Lemma byLayerNumber_body_one_per_part step gl part gl' :
  one_per_part gl → byLayerNumber_body step gl part = Done gl' → one_per_part gl'.
Proof.
  unfold byLayerNumber_body. intros Hgl.
  destruct (decide _); [|by intros [= <-]].
  destruct (getStepPair part step); [|done].
  by apply addStepPair_one_per_part.
Qed.

Lemma byLayerNumber_one_per_part parts gls :
  populateSteps_byLayerNumber parts = Done gls → Forall one_per_part gls.
Proof.
  unfold populateSteps_byLayerNumber.
  apply (for_each_invariant (Forall one_per_part)); [|done].
  intros acc step acc' _ Hacc (gl & Hgl & [= <-])%bind_Done.
  apply Forall_app. split; [done|]. apply Forall_singleton.
  revert Hgl. apply (for_each_invariant one_per_part); [|apply create_one_per_part].
  intros ????. apply byLayerNumber_body_one_per_part.
Qed.

Lemma byPart_one_per_part parts gls :
  populateSteps_byPart parts = Done gls → Forall one_per_part gls.
Proof.
  unfold populateSteps_byPart. intros (r & Hr & [= <-])%bind_Done.
  revert Hr. apply (for_each_invariant (λ r, Forall one_per_part r.2)); [|done].
  intros acc part acc' _ Hacc.
  apply (for_each_invariant (λ r, Forall one_per_part r.2)); [|done].
  intros a s a' _ Ha. unfold byPart_body.
  destruct (getStepPair part s); [|done].
  intros (gl & Hgl & [= <-])%bind_Done. simpl.
  apply Forall_app. split; [done|]. apply Forall_singleton.
  eapply addStepPair_one_per_part; [|done]. apply create_one_per_part.
Qed.

Lemma group_body_one_per_part tol mp acc part acc' :
  one_per_part acc.1 → group_body tol mp acc part = Done acc' → one_per_part acc'.1.
Proof.
  unfold group_body. intros Hacc.
  destruct (decide _); [by intros [= <-]|].
  destruct (getStepPair part _); [|done].
  destruct (isEqual _ _ _); [|by intros [= <-]].
  intros (gl & Hgl & [= <-])%bind_Done. simpl.
  by eapply addStepPair_one_per_part.
Qed.

Lemma byHeight_iteration_one_per_part dir tol parts cl num r :
  byHeight_iteration dir tol parts cl num = Done r → one_per_part r.1.
Proof.
  unfold byHeight_iteration. intros (ms & _ & Hr)%bind_Done.
  revert Hr. apply (for_each_invariant (λ r, one_per_part r.1)).
  - intros ????. apply group_body_one_per_part.
  - apply create_one_per_part.
Qed.

Lemma byHeight_loop_one_per_part fuel dir tol parts cl num acc gls :
  Forall one_per_part acc →
  byHeight_loop fuel dir tol parts cl num acc = Done gls →
  Forall one_per_part gls.
Proof.
  revert cl num acc. induction fuel as [|fuel IH]; intros cl num acc Hacc; [done|].
  simpl. intros (r & Hr & Hloop)%bind_Done.
  assert (Forall one_per_part (acc ++ [r.1])) as Hacc'.
  { apply Forall_app. split; [done|]. apply Forall_singleton.
    by eapply byHeight_iteration_one_per_part. }
  destruct (steps_left_after r.2 parts).
  - by eapply IH.
  - by injection Hloop as <-.
Qed.

(** C2. Every layer that [populateStep] or [populateSteps] returns holds at
    most one entry per part id: no part id occurs twice among the entries of
    a returned layer. This holds for every parts list, also one in which a
    part reports two or more dirty step pairs (there [addStepPair] refuses
    the second entry and no layer is returned at all). *)
Theorem returned_layers_one_per_part parts :
  (∀ gl, populateStep parts = Done gl → one_per_part gl) ∧
  (∀ QT_NO_DEBUG fuel global_sb gls,
     populateSteps QT_NO_DEBUG fuel global_sb parts = Done gls →
     Forall one_per_part gls).
Proof.
  split.
  - intros gl. rewrite populateStep_spec. unfold one_per_part.
    destruct (decide _); [|done]. by intros [= <-].
  - intros QT fuel sb gls. unfold populateSteps.
    destruct (kLayerOrdering sb).
    + by apply byHeight_loop_one_per_part.
    + apply byLayerNumber_one_per_part.
    + apply byPart_one_per_part.
    + intros (_ & _ & [= <-])%bind_Done. done.
Qed.

(** ** By part *)

Lemma singleLayers_app n es1 es2 :
  singleLayers n (es1 ++ es2) =
  singleLayers n es1 ++ singleLayers (n + length es1) es2.
Proof.
  revert n. induction es1 as [|e es1 IH]; intros n; simpl.
  - by rewrite Nat.add_0_r.
  - rewrite IH. do 3 f_equal. lia.
Qed.

Lemma singleLayers_lookup n es i :
  singleLayers n es !! i =
  (λ e, {| m_layer_index := n + i; getStepPairs := [e] |}) <$> es !! i.
Proof.
  revert n i. induction es as [|e es IH]; intros n [|i]; simpl; try done.
  - by rewrite Nat.add_0_r.
  - rewrite IH. by replace (S n + i) with (n + S i) by lia.
Qed.

Lemma singleLayers_length n es : length (singleLayers n es) = length es.
Proof. revert n. induction es; intros; simpl; auto. Qed.

Lemma singleLayers_scheduled n es : scheduled (singleLayers n es) = es.
Proof. revert n. induction es as [|e es IH]; intros; simpl; [done|]. by rewrite IH. Qed.

Lemma byPart_body_Some part n acc s sp :
  getStepPair part s = Some sp →
  byPart_body part (n, acc) s =
  Done (S n, acc ++ [{| m_layer_index := n; getStepPairs := [(getId part, sp)] |}]).
Proof. unfold byPart_body. by intros ->. Qed.

Lemma byPart_inner part l a n acc :
  drop a (m_step_pairs part) = l →
  for_each (byPart_body part) (seq a (length l)) (n, acc) =
  Done (n + length l, acc ++ singleLayers n (pair (getId part) <$> l)).
Proof.
  revert a n acc. induction l as [|x l IH]; intros a n acc Hdrop; simpl.
  - by rewrite Nat.add_0_r, app_nil_r.
  - rewrite (byPart_body_Some _ _ _ _ x).
    2:{ unfold getStepPair. by rewrite <- (Nat.add_0_r a), <- lookup_drop, Hdrop. }
    simpl. rewrite (IH (S a)).
    + rewrite <- app_assoc. simpl. do 2 f_equal. lia.
    + replace (S a) with (a + 1) by lia. by rewrite <- drop_drop, Hdrop.
Qed.

Lemma byPart_outer parts n acc :
  for_each (λ acc part, for_each (byPart_body part) (seq 0 (countStepPairs part)) acc)
    parts (n, acc) =
  Done (n + length (available parts), acc ++ singleLayers n (available parts)).
Proof.
  unfold available, perPart.
  revert n acc. induction parts as [|part parts IH]; intros n acc; simpl.
  - by rewrite Nat.add_0_r, app_nil_r.
  - change (countStepPairs part) with (length (m_step_pairs part)).
    rewrite (byPart_inner part _ 0) by done. simpl.
    rewrite IH, singleLayers_app, length_app, length_fmap, <- app_assoc.
    do 2 f_equal. lia.
Qed.

Lemma populateSteps_byPart_spec parts :
  populateSteps_byPart parts = Done (singleLayers 0 (available parts)).
Proof. unfold populateSteps_byPart. by rewrite byPart_outer. Qed.

Lemma available_length parts :
  length (available parts) = sum_list (countStepPairs <$> parts).
Proof.
  unfold available, perPart.
  induction parts as [|p parts IH]; simpl; [done|].
  by rewrite length_app, length_fmap, IH.
Qed.

(** C6. By part, the call returns a schedule with as many layers as the
    parts have step pairs in total; the layer at position [i] has sequence
    index [i] and holds exactly one entry, the [i]-th of the list that runs
    through the parts in input order and through each part's step pairs in
    index order. So each part's layers form one contiguous run, the runs
    follow the order of the parts, and the indices count up from 0. *)
Theorem byPart_schedule QT_NO_DEBUG fuel global_sb parts :
  kLayerOrdering global_sb = kByPart →
  ∃ gls,
    populateSteps QT_NO_DEBUG fuel global_sb parts = Done gls ∧
    length gls = sum_list (countStepPairs <$> parts) ∧
    (∀ i, gls !! i =
          (λ e, {| m_layer_index := i; getStepPairs := [e] |}) <$> available parts !! i) ∧
    scheduled gls = available parts.
Proof.
  intros Hm. exists (singleLayers 0 (available parts)).
  unfold populateSteps. rewrite Hm. split_and!.
  - apply populateSteps_byPart_spec.
  - by rewrite singleLayers_length, available_length.
  - intros i. apply singleLayers_lookup.
  - apply singleLayers_scheduled.
Qed.

(** ** By layer number *)

Lemma max_countStepPairs_max_list parts :
  max_countStepPairs parts = max_list (countStepPairs <$> parts).
Proof.
  unfold max_countStepPairs.
  assert (∀ a, fold_left (λ m p, m `max` countStepPairs p) parts a =
               a `max` max_list (countStepPairs <$> parts)) as ->; [|done].
  induction parts as [|p parts IH]; intros a; simpl; [lia|].
  rewrite IH. symmetry. apply Nat.max_assoc.
Qed.

Lemma getStepPair_is_Some p i : is_Some (getStepPair p i) ↔ i < countStepPairs p.
Proof. apply lookup_lt_is_Some. Qed.

Lemma byLayerNumber_body_lookup step gl p :
  byLayerNumber_body step gl p =
  match getStepPair p step with
  | Some sp => addStepPair (getId p) sp gl
  | None => Done gl
  end.
Proof.
  unfold byLayerNumber_body.
  destruct (getStepPair p step) as [sp|] eqn:Hsp.
  - rewrite decide_True; [done|]. apply getStepPair_is_Some. eauto.
  - rewrite decide_False; [done|].
    rewrite <- getStepPair_is_Some, Hsp. by intros [? ?].
Qed.

Lemma byLayerNumber_inner step parts gl :
  for_each (byLayerNumber_body step) parts gl = addAll (stepsAt step parts) gl.
Proof.
  unfold addAll, stepsAt, perPart. revert gl.
  induction parts as [|p parts IH]; intros gl; simpl; [done|].
  rewrite byLayerNumber_body_lookup.
  destruct (getStepPair p step) as [sp|]; simpl; [|apply IH].
  destruct (addStepPair _ _ _); simpl; auto.
Qed.

Lemma byLayerNumber_outer parts steps acc :
  for_each
    (λ global_layers step,
       gl ← for_each (byLayerNumber_body step) parts (GlobalLayer_create step);
       Done (global_layers ++ [gl]))
    steps acc =
  if decide (Forall (λ step, NoDup (stepsAt step parts).*1) steps)
  then Done (acc ++ ((λ step, {| m_layer_index := step;
                                 getStepPairs := stepsAt step parts |}) <$> steps))
  else Fatal.
Proof.
  revert acc. induction steps as [|step steps IH]; intros acc; simpl.
  - by rewrite app_nil_r.
  - rewrite byLayerNumber_inner, addAll_spec by apply create_one_per_part. simpl.
    destruct (decide (NoDup _)) as [Hnd|Hnd]; simpl.
    + rewrite IH. destruct (decide (Forall _ steps)) as [Hall|Hall].
      * rewrite decide_True by by constructor. by rewrite <- app_assoc.
      * rewrite decide_False; [done|]. by intros [_ ?]%Forall_cons.
    + rewrite decide_False; [done|]. by intros [? _]%Forall_cons.
Qed.

Lemma perPart_ids_sublist (f : Part → option StepPair) parts :
  (perPart (λ p, option_list (f p)) parts).*1 `sublist_of` getId <$> parts.
Proof.
  unfold perPart. induction parts as [|p parts IH]; simpl; [done|].
  destruct (f p); simpl.
  - by apply sublist_skip.
  - by apply sublist_cons.
Qed.

Lemma perPart_NoDup (f : Part → option StepPair) parts :
  NoDup (getId <$> parts) → NoDup (perPart (λ p, option_list (f p)) parts).*1.
Proof. intros Hnd. eapply sublist_NoDup; [done|apply perPart_ids_sublist]. Qed.

Lemma elem_of_perPart (f : Part → list StepPair) parts k sp :
  (k, sp) ∈ perPart f parts ↔ ∃ p, p ∈ parts ∧ getId p = k ∧ sp ∈ f p.
Proof.
  unfold perPart. rewrite list_elem_of_In, in_flat_map. split.
  - intros (p & Hp%list_elem_of_In & Hin%list_elem_of_In).
    apply list_elem_of_fmap in Hin as (sp' & [= -> ->] & Hsp). eauto.
  - intros (p & Hp & <- & Hsp). exists p.
    split; apply list_elem_of_In; [done|]. apply list_elem_of_fmap. eauto.
Qed.

Lemma elem_of_stepsAt step parts k sp :
  (k, sp) ∈ stepsAt step parts ↔
  ∃ p, p ∈ parts ∧ getId p = k ∧ step < countStepPairs p ∧ getStepPair p step = Some sp.
Proof.
  unfold stepsAt. rewrite elem_of_perPart. split.
  - intros (p & Hp & Hk & Hsp). exists p.
    destruct (getStepPair p step) as [sp'|] eqn:Hlk; simpl in Hsp.
    + apply list_elem_of_singleton in Hsp as ->. split_and!; try done.
      apply getStepPair_is_Some. eauto.
    + by apply elem_of_nil in Hsp.
  - intros (p & Hp & Hk & _ & Hsp). exists p. rewrite Hsp. simpl.
    split_and!; try done. by apply list_elem_of_singleton.
Qed.

Lemma populateSteps_byLayerNumber_spec parts :
  populateSteps_byLayerNumber parts =
  if decide (Forall (λ step, NoDup (stepsAt step parts).*1)
                    (seq 0 (max_countStepPairs parts)))
  then Done ((λ step, {| m_layer_index := step; getStepPairs := stepsAt step parts |})
               <$> seq 0 (max_countStepPairs parts))
  else Fatal.
Proof. unfold populateSteps_byLayerNumber. by rewrite byLayerNumber_outer. Qed.

(** C5. By layer number, whenever the call returns (it does when the part
    ids are pairwise distinct), the schedule has exactly as many layers as
    the largest step count among the parts; the layer at position [i] has
    sequence index [i], and its entries are precisely the step pair at index
    [i] of every part whose step count exceeds [i]. *)
Theorem byLayerNumber_schedule QT_NO_DEBUG fuel global_sb parts :
  kLayerOrdering global_sb = kByLayerNumber →
  (NoDup (getId <$> parts) →
   ∃ gls, populateSteps QT_NO_DEBUG fuel global_sb parts = Done gls) ∧
  (∀ gls,
     populateSteps QT_NO_DEBUG fuel global_sb parts = Done gls →
     length gls = max_list (countStepPairs <$> parts) ∧
     ∀ i gl, gls !! i = Some gl →
       m_layer_index gl = i ∧
       ∀ k sp, (k, sp) ∈ getStepPairs gl ↔
               ∃ p, p ∈ parts ∧ getId p = k ∧ i < countStepPairs p ∧
                    getStepPair p i = Some sp).
Proof.
  intros Hm. unfold populateSteps. rewrite Hm, populateSteps_byLayerNumber_spec.
  split.
  - intros Hnd. rewrite decide_True; [eauto|].
    apply Forall_forall. intros step _. by apply perPart_NoDup.
  - intros gls. destruct (decide _); [|done]. intros [= <-]. split.
    + by rewrite length_fmap, length_seq, max_countStepPairs_max_list.
    + intros i gl. rewrite list_lookup_fmap.
      intros (step & Hstep & ->)%fmap_Some.
      apply lookup_seq in Hstep as [-> _]. simpl. split; [done|].
      intros k sp. apply elem_of_stepsAt.
Qed.

(** ** By height: cursors and the two passes *)

Lemma cursor_insert_eq cl k v : cursor (<[k := v]> cl) k = v.
Proof. unfold cursor. by rewrite lookup_insert_eq. Qed.

Lemma cursor_insert_ne cl k k' v : k ≠ k' → cursor (<[k := v]> cl) k' = cursor cl k'.
Proof. unfold cursor. intros. by rewrite lookup_insert_ne. Qed.

Lemma cursor_init parts k : cursor (init_cursors parts) k = 0.
Proof.
  unfold init_cursors.
  assert (∀ c, cursor c k = 0 →
    cursor (fold_left (λ cl part, <[getId part := 0]> cl) parts c) k = 0) as H.
  { induction parts as [|p parts IH]; intros c Hc; simpl; [done|].
    apply IH. destruct (decide (getId p = k)) as [->|].
    - apply cursor_insert_eq.
    - by rewrite cursor_insert_ne. }
  by apply H.
Qed.

Lemma active_getStepPair cl p :
  active cl p ↔ is_Some (getStepPair p (cursor cl (getId p))).
Proof. unfold active. by rewrite getStepPair_is_Some. Qed.

Lemma steps_left_after_true cl parts :
  steps_left_after cl parts = true ↔ ∃ p, p ∈ parts ∧ active cl p.
Proof.
  unfold steps_left_after.
  assert (∀ b,
    fold_left (λ steps_left part,
      steps_left || (cursor cl (getId part) <? countStepPairs part)) parts b = true ↔
    b = true ∨ ∃ p, p ∈ parts ∧ active cl p) as H.
  { induction parts as [|p parts IH]; intros b; simpl.
    - split; [auto|]. intros [?|(? & []%elem_of_nil & _)]. done.
    - rewrite IH, orb_true_iff, Nat.ltb_lt. split.
      + intros [[?|?]|(q & ? & ?)]; [by left|right..].
        * exists p. split; [left|done].
        * exists q. split; [by right|done].
      + intros [?|(q & [->|?]%elem_of_cons & ?)]; [by left; left|by left; right|].
        right. eauto. }
  rewrite H. split; [|auto]. by intros [?|?].
Qed.

Lemma for_each_not_OutOfFuel {A S : Type} (body : S → A → Outcome S) xs s :
  (∀ s1 x, body s1 x ≠ OutOfFuel) → for_each body xs s ≠ OutOfFuel.
Proof.
  intros Hbody. revert s. induction xs as [|x xs IH]; intros s; simpl; [done|].
  destruct (body s x) eqn:Hx; simpl; [apply IH|done|by apply Hbody in Hx].
Qed.

Lemma find_min_body_cases dir cl ms p :
  find_min_body dir cl ms p =
  match getStepPair p (cursor cl (getId p)) with
  | Some sp =>
      Done (if isNull (part_with_min_plane ms)
               || Qlt_bool (stepDistance dir sp) (min_dist ms)
            then {| part_with_min_plane := getId p;
                    min_plane := shiftedPlane (printing_layer sp);
                    min_dist := stepDistance dir sp |}
            else ms)
  | None => Done ms
  end.
Proof.
  unfold find_min_body, stepDistance.
  destruct (getStepPair p _) as [sp|] eqn:Hsp.
  - rewrite decide_False.
    + by destruct (_ || _).
    + assert (active cl p) by (apply active_getStepPair; eauto).
      unfold active in *. lia.
  - rewrite decide_True; [done|].
    destruct (decide (countStepPairs p ≤ cursor cl (getId p))); [done|].
    assert (active cl p) as [? ?]%active_getStepPair by (unfold active; lia).
    congruence.
Qed.

Lemma group_body_cases tol mp gl cl p :
  group_body tol mp (gl, cl) p =
  match selected tol mp cl p with
  | Some sp =>
      gl' ← addStepPair (getId p) sp gl;
      Done (gl', <[getId p := S (cursor cl (getId p))]> cl)
  | None => Done (gl, cl)
  end.
Proof.
  unfold group_body, selected. simpl.
  destruct (getStepPair p _) as [sp|] eqn:Hsp.
  - rewrite decide_False.
    + by destruct (isEqual _ _ _).
    + assert (active cl p) by (apply active_getStepPair; eauto).
      unfold active in *. lia.
  - rewrite decide_True; [done|].
    destruct (decide (countStepPairs p ≤ cursor cl (getId p))); [done|].
    assert (active cl p) as [? ?]%active_getStepPair by (unfold active; lia).
    congruence.
Qed.

Lemma selected_active tol mp cl p sp :
  selected tol mp cl p = Some sp →
  getStepPair p (cursor cl (getId p)) = Some sp ∧ active cl p ∧
  isEqual (shiftedPlane (printing_layer sp)) mp tol = true.
Proof.
  unfold selected. destruct (getStepPair p _) as [sp'|] eqn:Hsp; [|done].
  destruct (isEqual _ _ _) eqn:Heq; [|done]. intros [= <-].
  split_and!; try done. apply active_getStepPair. eauto.
Qed.

Lemma selected_cursor_eq tol mp cl1 cl2 p :
  cursor cl1 (getId p) = cursor cl2 (getId p) →
  selected tol mp cl1 p = selected tol mp cl2 p.
Proof. unfold selected. by intros ->. Qed.

Lemma find_min_pass dir cl parts ms0 :
  ∃ ms, for_each (find_min_body dir cl) parts ms0 = Done ms ∧
    ((ms = ms0 ∧
      (isNull (part_with_min_plane ms0) = true → ∀ p, p ∈ parts → ¬ active cl p)) ∨
     (∃ p sp, p ∈ parts ∧ tracks dir cl ms p sp)).
Proof.
  revert ms0. induction parts as [|p parts IH]; intros ms0; simpl.
  - exists ms0. split; [done|]. left. split; [done|]. by intros _ ? ?%elem_of_nil.
  - rewrite find_min_body_cases.
    destruct (getStepPair p _) as [sp|] eqn:Hsp; simpl.
    + destruct (isNull _ || Qlt_bool _ _) eqn:Hcond.
      * destruct (IH {| part_with_min_plane := getId p;
                        min_plane := shiftedPlane (printing_layer sp);
                        min_dist := stepDistance dir sp |})
          as (ms & Hms & Hcase).
        exists ms. split; [done|]. right.
        destruct Hcase as [[-> _]|(q & sq & Hq & Htr)].
        -- exists p, sp. split; [left|]. by repeat split.
        -- exists q, sq. split; [by right|done].
      * apply orb_false_iff in Hcond as [Hnull _].
        destruct (IH ms0) as (ms & Hms & Hcase).
        exists ms. split; [done|].
        destruct Hcase as [[-> _]|(q & sq & Hq & Htr)].
        -- left. split; [done|]. congruence.
        -- right. exists q, sq. split; [by right|done].
    + destruct (IH ms0) as (ms & Hms & Hcase).
      exists ms. split; [done|].
      destruct Hcase as [[-> Hall]|(q & sq & Hq & Htr)].
      * left. split; [done|]. intros Hnull q [->|Hq]%elem_of_cons.
        -- rewrite active_getStepPair, Hsp. by intros [? ?].
        -- by apply Hall.
      * right. exists q, sq. split; [by right|done].
Qed.

Lemma group_body_mono tol mp acc p acc' :
  group_body tol mp acc p = Done acc' → ∀ k, cursor acc.2 k ≤ cursor acc'.2 k.
Proof.
  destruct acc as [gl cl]. rewrite group_body_cases.
  destruct (selected tol mp cl p); [|by intros [= <-]].
  intros (gl' & _ & [= <-])%bind_Done k. simpl.
  destruct (decide (getId p = k)) as [->|].
  - rewrite cursor_insert_eq. lia.
  - by rewrite cursor_insert_ne.
Qed.

Lemma group_pass_mono tol mp parts acc acc' :
  for_each (group_body tol mp) parts acc = Done acc' →
  ∀ k, cursor acc.2 k ≤ cursor acc'.2 k.
Proof.
  apply (for_each_invariant (λ a, ∀ k, cursor acc.2 k ≤ cursor a.2 k)); [|done].
  intros a p a' _ Ha Hbody k.
  pose proof (group_body_mono _ _ _ _ _ Hbody k). specialize (Ha k). lia.
Qed.

(** A part whose current plane equals the minimum plane is moved on by the
    grouping pass, whatever the other parts of the list are. *)
Lemma group_pass_progress tol mp parts acc acc' p sp :
  p ∈ parts → selected tol mp acc.2 p = Some sp →
  for_each (group_body tol mp) parts acc = Done acc' →
  cursor acc.2 (getId p) < cursor acc'.2 (getId p).
Proof.
  revert acc. induction parts as [|q parts IH]; intros acc Hp Hsel; simpl.
  { by apply elem_of_nil in Hp. }
  intros (acc1 & Hq & Hrest)%bind_Done.
  pose proof (group_body_mono _ _ _ _ _ Hq (getId p)) as Hmono1.
  pose proof (group_pass_mono _ _ _ _ _ Hrest (getId p)) as Hmono2.
  destruct (decide (cursor acc.2 (getId p) = cursor acc1.2 (getId p))) as [Heq|];
    [|lia].
  apply elem_of_cons in Hp as [->|Hp].
  - destruct acc as [gl cl]. rewrite group_body_cases in Hq. simpl in *.
    rewrite Hsel in Hq. apply bind_Done in Hq as (gl' & _ & [= <-]).
    simpl in *. rewrite cursor_insert_eq in Heq. lia.
  - rewrite Heq. apply IH; [done| |done].
    by rewrite <- (selected_cursor_eq _ _ acc.2).
Qed.

Lemma byHeight_iteration_not_OutOfFuel dir tol parts cl num :
  byHeight_iteration dir tol parts cl num ≠ OutOfFuel.
Proof.
  unfold byHeight_iteration.
  destruct (find_min_pass dir cl parts MinSearch_init) as (ms & -> & _). simpl.
  apply for_each_not_OutOfFuel. intros [gl c] p. rewrite group_body_cases.
  destruct (selected _ _ _ _); [|done].
  destruct (addStepPair _ _ _) eqn:Hadd; simpl; try done.
  by apply addStepPair_not_OutOfFuel in Hadd.
Qed.

Lemma remaining_decreases cl cl' parts p :
  (∀ k, cursor cl k ≤ cursor cl' k) →
  p ∈ parts → active cl p → cursor cl (getId p) < cursor cl' (getId p) →
  remaining cl' parts < remaining cl parts.
Proof.
  intros Hmono. unfold remaining, active.
  induction parts as [|q parts IH]; intros Hp Hact Hlt; csimpl.
  { by apply elem_of_nil in Hp. }
  assert (sum_list ((λ p, countStepPairs p - cursor cl' (getId p)) <$> parts) ≤
          sum_list ((λ p, countStepPairs p - cursor cl (getId p)) <$> parts)) as Hle.
  { clear -Hmono. induction parts as [|r parts IH]; csimpl; [done|].
    specialize (Hmono (getId r)). lia. }
  pose proof (Hmono (getId q)).
  apply elem_of_cons in Hp as [->|Hp]; [lia|].
  specialize (IH Hp Hact Hlt). lia.
Qed.

(** One iteration that starts with an active part moves the tracked part on
    and lowers the number of unscheduled steps. *)
Lemma byHeight_iteration_progress dir tol parts cl num r :
  (∀ pl, isEqual pl pl tol = true) →
  (∃ p, p ∈ parts ∧ active cl p) →
  byHeight_iteration dir tol parts cl num = Done r →
  ∃ ms, for_each (find_min_body dir cl) parts MinSearch_init = Done ms ∧
        cursor cl (part_with_min_plane ms) < cursor r.2 (part_with_min_plane ms) ∧
        remaining r.2 parts < remaining cl parts.
Proof.
  intros Hrefl (q & Hq & Hact). unfold byHeight_iteration.
  destruct (find_min_pass dir cl parts MinSearch_init)
    as (ms & Hms & [[_ Hnone]|(p & sp & Hp & Hsp & Hid & Hpl & _)]).
  { by destruct (Hnone eq_refl q Hq). }
  rewrite Hms. simpl. intros Hgroup. exists ms. split; [done|].
  assert (selected tol (min_plane ms) cl p = Some sp) as Hsel.
  { unfold selected. by rewrite Hsp, Hpl, Hrefl. }
  pose proof (group_pass_progress _ _ _ (_, cl) _ _ _ Hp Hsel Hgroup) as Hlt.
  simpl in Hlt. rewrite Hid. split; [done|].
  apply (remaining_decreases _ _ _ p); try done.
  - apply (group_pass_mono _ _ _ _ _ Hgroup).
  - apply active_getStepPair. eauto.
Qed.

Lemma byHeight_loop_terminates fuel dir tol parts cl num acc :
  (∀ pl, isEqual pl pl tol = true) →
  remaining cl parts < fuel →
  byHeight_loop fuel dir tol parts cl num acc ≠ OutOfFuel.
Proof.
  intros Hrefl. revert cl num acc.
  induction fuel as [|fuel IH]; intros cl num acc Hfuel; [lia|]. simpl.
  destruct (byHeight_iteration dir tol parts cl num) as [r| |] eqn:Hit; simpl;
    [|done|by apply byHeight_iteration_not_OutOfFuel in Hit].
  destruct (steps_left_after r.2 parts) eqn:Hleft; [|done].
  apply IH. apply steps_left_after_true in Hleft as (p & Hp & Hact).
  assert (∃ q, q ∈ parts ∧ active cl q) as Hex.
  { exists p. split; [done|]. unfold byHeight_iteration in Hit.
    apply bind_Done in Hit as (ms & _ & Hgroup).
    pose proof (group_pass_mono _ _ _ _ _ Hgroup (getId p)). simpl in *.
    unfold active in *. lia. }
  destruct (byHeight_iteration_progress _ _ _ _ _ _ Hrefl Hex Hit)
    as (ms & _ & _ & Hdec).
  lia.
Qed.

Lemma remaining_init parts :
  remaining (init_cursors parts) parts = sum_list (countStepPairs <$> parts).
Proof.
  unfold remaining. f_equal. apply list_fmap_ext. intros _ p _.
  rewrite cursor_init. lia.
Qed.

(** C8, as the code has it. That the plane of the minimum matches itself
    is a condition, not a given. When every plane equals itself under the
    tolerance test, the by-height loop terminates on every parts list: run
    with more fuel than the parts have step pairs in total, it does not run
    out of fuel. In each iteration that starts with a part that has an
    unscheduled step, the grouping pass moves on the cursor of the part
    that the minimum search ended on, so the number of unscheduled steps,
    summed over the parts, strictly decreases. *)
Theorem byHeight_terminates QT_NO_DEBUG fuel global_sb parts :
  kLayerOrdering global_sb = kByHeight →
  (∀ pl, isEqual pl pl (kLayerGroupingTolerance global_sb) = true) →
  (sum_list (countStepPairs <$> parts) < fuel →
   populateSteps QT_NO_DEBUG fuel global_sb parts ≠ OutOfFuel) ∧
  (∀ cl num r,
     (∃ p, p ∈ parts ∧ active cl p) →
     byHeight_iteration (stackingDirection global_sb)
       (kLayerGroupingTolerance global_sb) parts cl num = Done r →
     ∃ ms,
       for_each (find_min_body (stackingDirection global_sb) cl) parts
         MinSearch_init = Done ms ∧
       cursor cl (part_with_min_plane ms) < cursor r.2 (part_with_min_plane ms) ∧
       remaining r.2 parts < remaining cl parts).
Proof.
  intros Hm Hrefl. split.
  - intros Hfuel. unfold populateSteps, populateSteps_byHeight. rewrite Hm.
    apply byHeight_loop_terminates; [done|]. by rewrite remaining_init.
  - intros cl num r. by apply byHeight_iteration_progress.
Qed.

(** ** Entries by part *)

Lemma NoDup_ids_inj parts p q :
  NoDup (getId <$> parts) → p ∈ parts → q ∈ parts → getId p = getId q → p = q.
Proof.
  induction parts as [|r parts IH]; csimpl; [by intros _ ?%elem_of_nil|].
  intros [Hr Hnd]%NoDup_cons [->|Hp]%elem_of_cons [->|Hq]%elem_of_cons Heq;
    try done; [| |by apply IH]; exfalso; apply Hr, list_elem_of_fmap; eauto.
Qed.

Lemma entriesOf_app k es1 es2 :
  entriesOf k (es1 ++ es2) = entriesOf k es1 ++ entriesOf k es2.
Proof. apply filter_app. Qed.

Lemma entriesOf_pair_eq k (l : list StepPair) :
  entriesOf k (pair k <$> l) = pair k <$> l.
Proof.
  unfold entriesOf. induction l as [|x l IH]; csimpl; [done|].
  rewrite filter_cons_True by done. by rewrite IH.
Qed.

Lemma entriesOf_pair_ne k k' (l : list StepPair) :
  k' ≠ k → entriesOf k (pair k' <$> l) = [].
Proof.
  intros Hne. unfold entriesOf. induction l as [|x l IH]; csimpl; [done|].
  by rewrite filter_cons_False.
Qed.

Lemma perPart_cons (f : Part → list StepPair) q parts :
  perPart f (q :: parts) = (pair (getId q) <$> f q) ++ perPart f parts.
Proof. done. Qed.

Lemma entriesOf_perPart_notin (f : Part → list StepPair) parts k :
  k ∉ getId <$> parts → entriesOf k (perPart f parts) = [].
Proof.
  induction parts as [|q parts IH]; [done|]. rewrite fmap_cons, perPart_cons.
  intros [Hq Hk]%not_elem_of_cons.
  rewrite entriesOf_app, entriesOf_pair_ne, IH by done. done.
Qed.

Lemma entriesOf_perPart_in (f : Part → list StepPair) parts p :
  NoDup (getId <$> parts) → p ∈ parts →
  entriesOf (getId p) (perPart f parts) = pair (getId p) <$> f p.
Proof.
  induction parts as [|q parts IH]; [by intros _ ?%elem_of_nil|].
  rewrite fmap_cons, perPart_cons.
  intros [Hq Hnd]%NoDup_cons [->|Hp]%elem_of_cons; rewrite entriesOf_app.
  - rewrite entriesOf_pair_eq.
    rewrite (entriesOf_perPart_notin f parts (getId q)) by done.
    apply app_nil_r.
  - rewrite entriesOf_pair_ne, IH; [done..|].
    intros Heq. apply Hq. rewrite Heq. apply list_elem_of_fmap. eauto.
Qed.

Lemma scheduled_app gls1 gls2 : scheduled (gls1 ++ gls2) = scheduled gls1 ++ scheduled gls2.
Proof. unfold scheduled. apply flat_map_app. Qed.

Lemma stepsOf_app k gls1 gls2 : stepsOf k (gls1 ++ gls2) = stepsOf k gls1 ++ stepsOf k gls2.
Proof. unfold stepsOf. by rewrite scheduled_app, entriesOf_app, fmap_app. Qed.

Lemma stepsOf_singleton k gl : stepsOf k [gl] = (entriesOf k (getStepPairs gl)).*2.
Proof. unfold stepsOf, scheduled. simpl. by rewrite app_nil_r. Qed.

Lemma stepsOf_cons k gl gls :
  stepsOf k (gl :: gls) = (entriesOf k (getStepPairs gl)).*2 ++ stepsOf k gls.
Proof. unfold stepsOf, scheduled. simpl. by rewrite entriesOf_app, fmap_app. Qed.

Lemma snd_pair_fmap (k : QUuid) (l : list StepPair) : (pair k <$> l).*2 = l.
Proof. rewrite <- list_fmap_compose. apply list_fmap_id. Qed.

Lemma entriesOf_first k es e rest :
  entriesOf k es = e :: rest →
  ∃ a b, es = a ++ e :: b ∧ entriesOf k a = [] ∧ entriesOf k b = rest.
Proof.
  unfold entriesOf. induction es as [|x es IH]; [done|].
  destruct (decide (x.1 = k)) as [Hx|Hx].
  - rewrite filter_cons_True by done. intros [= -> <-]. by exists [], es.
  - rewrite filter_cons_False by done. intros (a & b & -> & Ha & Hb)%IH.
    exists (x :: a), b. split_and!; [done| |done].
    by rewrite filter_cons_False.
Qed.

(** Two lists of entries with the same entries for every part, in the same
    order part by part, are permutations of each other. *)
Lemma perm_by_part es1 es2 :
  (∀ k, entriesOf k es1 = entriesOf k es2) → es1 ≡ₚ es2.
Proof.
  revert es2. induction es1 as [|[k v] es1 IH]; intros es2 H.
  - destruct es2 as [|[k v] es2]; [done|].
    specialize (H k). unfold entriesOf in H.
    by rewrite filter_nil, filter_cons_True in H.
  - pose proof (H k) as Hk. unfold entriesOf in Hk.
    rewrite filter_cons_True in Hk by done. symmetry in Hk.
    apply entriesOf_first in Hk as (a & b & -> & Ha & Hb).
    rewrite <- Permutation_middle. constructor. apply IH. intros k'.
    specialize (H k'). rewrite !entriesOf_app in *. unfold entriesOf in *.
    destruct (decide (k = k')) as [<-|Hne].
    + by rewrite Ha, Hb.
    + by rewrite !(filter_cons_False _ (k, v)) in H.
Qed.

(** A schedule that shows, for every part, exactly the part's step pairs in
    index order, and nothing of any other id, is complete and free of
    duplicates. *)
Lemma schedule_complete parts gls :
  NoDup (getId <$> parts) →
  (∀ e, e ∈ scheduled gls → e.1 ∈ getId <$> parts) →
  (∀ p, p ∈ parts → stepsOf (getId p) gls = m_step_pairs p) →
  scheduled gls ≡ₚ available parts.
Proof.
  intros Hnd Hkeys Hsteps. apply perm_by_part. intros k.
  destruct (decide (k ∈ getId <$> parts)) as [Hk|Hk].
  - apply list_elem_of_fmap in Hk as (p & -> & Hp).
    unfold available. rewrite entriesOf_perPart_in by done.
    rewrite <- (Hsteps p Hp). unfold stepsOf.
    generalize (scheduled gls). intros es. unfold entriesOf.
    induction es as [|[k v] es IH]; [done|].
    destruct (decide (k = getId p)) as [->|].
    + rewrite filter_cons_True by done. csimpl. by rewrite <- IH.
    + by rewrite filter_cons_False.
  - unfold available. rewrite entriesOf_perPart_notin by done.
    unfold entriesOf. apply elem_of_nil_inv.
    intros e [<- He%Hkeys]%list_elem_of_filter. done.
Qed.

(** ** By height with pairwise distinct part ids *)

Lemma grouped_cons tol mp cl q parts :
  grouped tol mp cl (q :: parts) =
  (pair (getId q) <$> option_list (selected tol mp cl q)) ++ grouped tol mp cl parts.
Proof. done. Qed.

Lemma advance_cons tol mp cl q parts c :
  advance tol mp cl (q :: parts) c =
  advance tol mp cl parts
    (if selected tol mp cl q is Some _
     then <[getId q := S (cursor cl (getId q))]> c else c).
Proof. done. Qed.

(** With distinct ids the grouping pass never fails: it appends the entries
    of the selected parts and moves their cursors on. *)
Lemma group_pass_spec tol mp parts gl c cl :
  NoDup (getId <$> parts) →
  (∀ p, p ∈ parts → getId p ∉ (getStepPairs gl).*1) →
  (∀ p, p ∈ parts → cursor c (getId p) = cursor cl (getId p)) →
  for_each (group_body tol mp) parts (gl, c) =
  Done ({| m_layer_index := m_layer_index gl;
           getStepPairs := getStepPairs gl ++ grouped tol mp cl parts |},
        advance tol mp cl parts c).
Proof.
  revert gl c. induction parts as [|q parts IH]; intros gl c Hnd Hfresh Hcur.
  { simpl. rewrite app_nil_r. by destruct gl. }
  rewrite fmap_cons in Hnd. apply NoDup_cons in Hnd as [Hq Hnd].
  cbn [for_each]. rewrite group_body_cases, grouped_cons, advance_cons.
  rewrite (selected_cursor_eq _ _ c cl) by (apply Hcur; left).
  rewrite (Hcur q) by left.
  destruct (selected tol mp cl q) as [sp|]; simpl.
  - assert (addStepPair (getId q) sp gl = Done
      {| m_layer_index := m_layer_index gl;
         getStepPairs := getStepPairs gl ++ [(getId q, sp)] |}) as ->.
    { apply addStepPair_Done. split; [|done]. apply Hfresh. left. }
    simpl. rewrite IH; simpl.
    + by rewrite <- app_assoc.
    + done.
    + intros p Hp. rewrite fmap_app. simpl.
      intros [?|[Heq|[]%elem_of_nil]%elem_of_cons]%elem_of_app.
      * by apply (Hfresh p); [right|].
      * apply Hq. rewrite <- Heq. apply list_elem_of_fmap. eauto.
    + intros p Hp. rewrite cursor_insert_ne; [apply Hcur; by right|].
      intros Heq. apply Hq. rewrite Heq. apply list_elem_of_fmap. eauto.
  - apply IH; [done|..]; intros p Hp; [apply Hfresh|apply Hcur]; by right.
Qed.

Lemma cursor_advance_notin tol mp cl parts c k :
  k ∉ getId <$> parts → cursor (advance tol mp cl parts c) k = cursor c k.
Proof.
  revert c. induction parts as [|q parts IH]; intros c; [done|].
  rewrite fmap_cons, advance_cons. intros [Hq Hk]%not_elem_of_cons.
  rewrite IH by done. destruct (selected _ _ _ _); [|done].
  by rewrite cursor_insert_ne.
Qed.

Lemma cursor_advance_in tol mp cl parts c p :
  NoDup (getId <$> parts) → p ∈ parts →
  cursor (advance tol mp cl parts c) (getId p) =
  if selected tol mp cl p is Some _ then S (cursor cl (getId p))
  else cursor c (getId p).
Proof.
  revert c. induction parts as [|q parts IH]; intros c.
  { by intros _ ?%elem_of_nil. }
  rewrite fmap_cons, advance_cons.
  intros [Hq Hnd]%NoDup_cons [->|Hp]%elem_of_cons.
  - rewrite cursor_advance_notin by done.
    destruct (selected _ _ _ _); [|done]. apply cursor_insert_eq.
  - rewrite IH by done. destruct (selected tol mp cl p); [done|].
    destruct (selected tol mp cl q); [|done]. apply cursor_insert_ne.
    intros Heq. apply Hq. rewrite Heq. apply list_elem_of_fmap. eauto.
Qed.

(** With distinct ids an iteration returns the layer of the parts whose
    current plane equals the plane the minimum search ended on. *)
Lemma byHeight_iteration_spec dir tol parts cl num :
  NoDup (getId <$> parts) →
  ∃ ms,
    for_each (find_min_body dir cl) parts MinSearch_init = Done ms ∧
    byHeight_iteration dir tol parts cl num =
    Done ({| m_layer_index := num;
             getStepPairs := grouped tol (min_plane ms) cl parts |},
          advance tol (min_plane ms) cl parts cl).
Proof.
  intros Hnd. destruct (find_min_pass dir cl parts MinSearch_init) as (ms & Hms & _).
  exists ms. split; [done|]. unfold byHeight_iteration. rewrite Hms. simpl.
  rewrite (group_pass_spec _ _ _ _ _ cl); try done.
  intros p _ []%elem_of_nil.
Qed.

Lemma entriesOf_grouped tol mp cl parts p :
  NoDup (getId <$> parts) → p ∈ parts →
  (entriesOf (getId p) (grouped tol mp cl parts)).*2 =
  option_list (selected tol mp cl p).
Proof.
  intros Hnd Hp. unfold grouped.
  by rewrite entriesOf_perPart_in, snd_pair_fmap.
Qed.

Lemma byHeight_loop_complete fuel dir tol parts cl num acc gls :
  NoDup (getId <$> parts) →
  (∀ e, e ∈ scheduled acc → e.1 ∈ getId <$> parts) →
  (∀ p, p ∈ parts → stepsOf (getId p) acc = take (cursor cl (getId p)) (m_step_pairs p)) →
  byHeight_loop fuel dir tol parts cl num acc = Done gls →
  (∀ e, e ∈ scheduled gls → e.1 ∈ getId <$> parts) ∧
  (∀ p, p ∈ parts → stepsOf (getId p) gls = m_step_pairs p).
Proof.
  intros Hnd. revert cl num acc.
  induction fuel as [|fuel IH]; intros cl num acc Hkeys Hsteps; [done|]. simpl.
  destruct (byHeight_iteration_spec dir tol parts cl num Hnd) as (ms & _ & ->).
  simpl. set (mp := min_plane ms).
  set (gl := {| m_layer_index := num; getStepPairs := grouped tol mp cl parts |}).
  assert (∀ e, e ∈ scheduled (acc ++ [gl]) → e.1 ∈ getId <$> parts) as Hkeys'.
  { intros e. rewrite scheduled_app. intros [?|He]%elem_of_app; [by apply Hkeys|].
    unfold scheduled in He. simpl in He. rewrite app_nil_r in He.
    destruct e as [k sp]. apply elem_of_perPart in He as (p & Hp & <- & _).
    apply list_elem_of_fmap. eauto. }
  assert (∀ p, p ∈ parts → stepsOf (getId p) (acc ++ [gl]) =
            take (cursor (advance tol mp cl parts cl) (getId p)) (m_step_pairs p))
    as Hsteps'.
  { intros p Hp. rewrite stepsOf_app, stepsOf_singleton, Hsteps by done. simpl.
    rewrite entriesOf_grouped, cursor_advance_in by done.
    destruct (selected tol mp cl p) as [sp|] eqn:Hsel; simpl.
    - apply selected_active in Hsel as (Hsp & _ & _). by rewrite (take_S_r _ _ sp).
    - apply app_nil_r. }
  destruct (steps_left_after _ parts) eqn:Hleft.
  - by apply IH.
  - intros [= <-]. split; [done|]. intros p Hp. rewrite Hsteps' by done.
    apply take_ge.
    destruct (decide (length (m_step_pairs p) ≤
                      cursor (advance tol mp cl parts cl) (getId p))); [done|].
    assert (steps_left_after (advance tol mp cl parts cl) parts = true); [|congruence].
    apply steps_left_after_true. exists p. split; [done|].
    unfold active, countStepPairs. lia.
Qed.

Lemma populateSteps_byHeight_complete fuel global_sb parts gls :
  NoDup (getId <$> parts) →
  populateSteps_byHeight fuel global_sb parts = Done gls →
  (∀ e, e ∈ scheduled gls → e.1 ∈ getId <$> parts) ∧
  (∀ p, p ∈ parts → stepsOf (getId p) gls = m_step_pairs p).
Proof.
  intros Hnd. unfold populateSteps_byHeight.
  apply byHeight_loop_complete; [done|by intros ? ?%elem_of_nil|].
  intros p _. by rewrite cursor_init.
Qed.

(** ** Completeness and order, policy by policy *)

Lemma populateSteps_byPart_complete parts gls :
  NoDup (getId <$> parts) →
  populateSteps_byPart parts = Done gls →
  (∀ e, e ∈ scheduled gls → e.1 ∈ getId <$> parts) ∧
  (∀ p, p ∈ parts → stepsOf (getId p) gls = m_step_pairs p).
Proof.
  intros Hnd. rewrite populateSteps_byPart_spec. intros [= <-]. split.
  - intros [k sp]. rewrite singleLayers_scheduled.
    intros (p & Hp & <- & _)%elem_of_perPart. apply list_elem_of_fmap. eauto.
  - intros p Hp. unfold stepsOf. rewrite singleLayers_scheduled.
    unfold available. by rewrite entriesOf_perPart_in, snd_pair_fmap.
Qed.

Lemma flat_map_lookup_seq {A : Type} (l : list A) n :
  flat_map (λ i, option_list (l !! i)) (seq 0 n) = take n l.
Proof.
  induction n as [|n IH]; [done|].
  rewrite seq_S, flat_map_app, IH. simpl. rewrite app_nil_r.
  destruct (l !! n) as [x|] eqn:Hx; simpl.
  - by rewrite (take_S_r _ _ x).
  - apply lookup_ge_None in Hx. rewrite app_nil_r, !take_ge by lia. done.
Qed.

Lemma stepsOf_byLayerNumber parts p (steps : list nat) :
  NoDup (getId <$> parts) → p ∈ parts →
  stepsOf (getId p)
    ((λ step, {| m_layer_index := step; getStepPairs := stepsAt step parts |})
       <$> steps) =
  flat_map (λ step, option_list (getStepPair p step)) steps.
Proof.
  intros Hnd Hp. induction steps as [|step steps IH]; [done|]. csimpl.
  rewrite stepsOf_cons, IH. simpl. f_equal.
  unfold stepsAt. by rewrite entriesOf_perPart_in, snd_pair_fmap.
Qed.

Lemma populateSteps_byLayerNumber_complete parts gls :
  NoDup (getId <$> parts) →
  populateSteps_byLayerNumber parts = Done gls →
  (∀ e, e ∈ scheduled gls → e.1 ∈ getId <$> parts) ∧
  (∀ p, p ∈ parts → stepsOf (getId p) gls = m_step_pairs p).
Proof.
  intros Hnd. rewrite populateSteps_byLayerNumber_spec.
  destruct (decide _); [|done]. intros [= <-]. split.
  - intros [k sp]. unfold scheduled. rewrite list_elem_of_In, in_flat_map.
    intros (gl & (step & <- & _)%in_map_iff & Hin%list_elem_of_In). simpl in Hin.
    apply elem_of_stepsAt in Hin as (p & Hp & <- & _).
    apply list_elem_of_fmap. eauto.
  - intros p Hp. rewrite stepsOf_byLayerNumber by done.
    unfold getStepPair. rewrite flat_map_lookup_seq. apply take_ge.
    rewrite max_countStepPairs_max_list. apply max_list_elem_of_le.
    apply list_elem_of_fmap. eauto.
Qed.

Lemma byHeight_loop_not_Fatal fuel dir tol parts cl num acc :
  NoDup (getId <$> parts) →
  byHeight_loop fuel dir tol parts cl num acc ≠ Fatal.
Proof.
  intros Hnd. revert cl num acc.
  induction fuel as [|fuel IH]; intros cl num acc; [done|]. simpl.
  destruct (byHeight_iteration_spec dir tol parts cl num Hnd) as (ms & _ & ->).
  simpl. destruct (steps_left_after _ parts); [apply IH|done].
Qed.

(** With distinct ids, a reflexive tolerance test and enough fuel, every
    recognized policy returns a schedule. *)
Lemma populateSteps_returns QT_NO_DEBUG fuel global_sb parts :
  recognized (kLayerOrdering global_sb) →
  NoDup (getId <$> parts) →
  (∀ pl, isEqual pl pl (kLayerGroupingTolerance global_sb) = true) →
  sum_list (countStepPairs <$> parts) < fuel →
  ∃ gls, populateSteps QT_NO_DEBUG fuel global_sb parts = Done gls.
Proof.
  intros Hrec Hnd Hrefl Hfuel. unfold populateSteps.
  destruct (kLayerOrdering global_sb); [..|done].
  - unfold populateSteps_byHeight.
    destruct (byHeight_loop _ _ _ _ _ _ _) as [gls| |] eqn:Hloop; [by eauto|..].
    + by apply byHeight_loop_not_Fatal in Hloop.
    + apply byHeight_loop_terminates in Hloop; [done..|].
      by rewrite remaining_init.
  - rewrite populateSteps_byLayerNumber_spec, decide_True; [eauto|].
    apply Forall_forall. intros step _. by apply perPart_NoDup.
  - rewrite populateSteps_byPart_spec. eauto.
Qed.

(** C1. For every recognized policy and every list of parts with pairwise
    distinct ids: [populateSteps] returns a schedule (by height: when a
    plane equals itself under the tolerance test and the loop is given more
    fuel than there are step pairs), and a returned schedule holds, up to
    order, exactly the available (part id, step pair) entries, each as often
    as it is available; for each part the step pairs found in successive
    layers, read in order, are the part's own sequence, so the step pair at
    position [i] of that reading is the part's step pair at index [i]. *)
Theorem populateSteps_complete_ordered QT_NO_DEBUG fuel global_sb parts :
  recognized (kLayerOrdering global_sb) →
  NoDup (getId <$> parts) →
  ((∀ pl, isEqual pl pl (kLayerGroupingTolerance global_sb) = true) →
   sum_list (countStepPairs <$> parts) < fuel →
   ∃ gls, populateSteps QT_NO_DEBUG fuel global_sb parts = Done gls) ∧
  (∀ gls,
     populateSteps QT_NO_DEBUG fuel global_sb parts = Done gls →
     scheduled gls ≡ₚ available parts ∧
     ∀ p, p ∈ parts → stepsOf (getId p) gls = m_step_pairs p).
Proof.
  intros Hrec Hnd. split; [by apply populateSteps_returns|]. intros gls Hrun.
  assert ((∀ e, e ∈ scheduled gls → e.1 ∈ getId <$> parts) ∧
          (∀ p, p ∈ parts → stepsOf (getId p) gls = m_step_pairs p)) as [Hkeys Hsteps].
  { unfold populateSteps in Hrun. destruct (kLayerOrdering global_sb); [..|done].
    - by eapply populateSteps_byHeight_complete.
    - by apply populateSteps_byLayerNumber_complete.
    - by apply populateSteps_byPart_complete. }
  split; [|done]. by apply schedule_complete.
Qed.

(** ** By height: what one layer holds *)

Lemma Qlt_bool_true a b : Qlt_bool a b = true → (a < b)%Q.
Proof.
  unfold Qlt_bool. intros H%negb_true_iff. apply Qnot_le_lt.
  intros Hle%Qle_bool_iff. congruence.
Qed.

Lemma Qlt_bool_false a b : Qlt_bool a b = false → (b <= a)%Q.
Proof. unfold Qlt_bool. intros H%negb_false_iff. by apply Qle_bool_iff. Qed.

Lemma isNull_false k : k ≠ QUuid_null → isNull k = false.
Proof. intros. by apply N.eqb_neq. Qed.

(** With no null id among the parts, the minimum search ends at or below
    the distance of every active part's current layer. *)
Lemma find_min_lower_bound dir cl parts ms0 ms :
  (∀ p, p ∈ parts → getId p ≠ QUuid_null) →
  for_each (find_min_body dir cl) parts ms0 = Done ms →
  (isNull (part_with_min_plane ms0) = false → (min_dist ms <= min_dist ms0)%Q) ∧
  (∀ q sq, q ∈ parts → getStepPair q (cursor cl (getId q)) = Some sq →
           (min_dist ms <= stepDistance dir sq)%Q).
Proof.
  revert ms0. induction parts as [|p parts IH]; intros ms0 Hids; simpl.
  { intros [= <-]. split; [intros; apply Qle_refl|]. by intros ?? ?%elem_of_nil. }
  assert (∀ p, p ∈ parts → getId p ≠ QUuid_null) as Hids' by (intros; apply Hids; by right).
  rewrite find_min_body_cases.
  destruct (getStepPair p _) as [sp|] eqn:Hsp; simpl.
  - destruct (isNull _ || Qlt_bool _ _) eqn:Hcond.
    + intros [Hle Hall]%IH; [|done]. simpl in Hle.
      specialize (Hle (isNull_false _ (Hids p ltac:(left)))). split.
      * intros Hnn. rewrite Hnn in Hcond. simpl in Hcond.
        apply Qlt_bool_true in Hcond. apply Qlt_le_weak.
        by eapply Qle_lt_trans.
      * intros q sq [->|Hq]%elem_of_cons Hsq; [|by eapply Hall].
        by replace sq with sp by congruence.
    + apply orb_false_iff in Hcond as [Hnn Hge%Qlt_bool_false].
      intros [Hle Hall]%IH; [|done]. specialize (Hle Hnn). split; [done|].
      intros q sq [->|Hq]%elem_of_cons Hsq; [|by eapply Hall].
      replace sq with sp by congruence. by eapply Qle_trans.
  - intros [Hle Hall]%IH; [|done]. split; [done|].
    intros q sq [->|Hq]%elem_of_cons Hsq; [congruence|by eapply Hall].
Qed.

Lemma elem_of_grouped tol mp cl parts p sp :
  NoDup (getId <$> parts) → p ∈ parts →
  (getId p, sp) ∈ grouped tol mp cl parts ↔ selected tol mp cl p = Some sp.
Proof.
  intros Hnd Hp. unfold grouped. rewrite elem_of_perPart. split.
  - intros (q & Hq & Heq & Hsp).
    assert (q = p) as -> by by apply (NoDup_ids_inj parts).
    destruct (selected tol mp cl p); simpl in Hsp.
    + by apply list_elem_of_singleton in Hsp as ->.
    + by apply elem_of_nil in Hsp.
  - intros Hsel. exists p. rewrite Hsel. simpl.
    split_and!; try done. by apply list_elem_of_singleton.
Qed.

Lemma group_pass_idle tol mp parts gl cl :
  (∀ p, p ∈ parts → ¬ active cl p) →
  for_each (group_body tol mp) parts (gl, cl) = Done (gl, cl).
Proof.
  induction parts as [|p parts IH]; intros Hidle; simpl; [done|].
  rewrite group_body_cases.
  destruct (selected tol mp cl p) as [sp|] eqn:Hsel.
  - apply selected_active in Hsel as (_ & Hact & _).
    destruct (Hidle p); [left|done].
  - simpl. apply IH. intros q Hq. apply Hidle. by right.
Qed.

(** A property of the layers of the schedule that every iteration
    establishes for its own layer, given an invariant of the cursors. *)
Lemma byHeight_loop_layers (P : GlobalLayer → Prop) (I : gmap N nat → Prop)
    fuel dir tol parts cl num acc gls :
  (∀ cl num r, I cl → byHeight_iteration dir tol parts cl num = Done r →
               P r.1 ∧ (steps_left_after r.2 parts = true → I r.2)) →
  I cl → Forall P acc →
  byHeight_loop fuel dir tol parts cl num acc = Done gls →
  Forall P gls.
Proof.
  intros Hstep. revert cl num acc.
  induction fuel as [|fuel IH]; intros cl num acc Hcl Hacc; [done|]. simpl.
  intros (r & Hr & Hloop)%bind_Done.
  destruct (Hstep _ _ _ Hcl Hr) as [HP HI].
  assert (Forall P (acc ++ [r.1])) as Hacc'.
  { apply Forall_app. split; [done|]. by apply Forall_singleton. }
  destruct (steps_left_after r.2 parts).
  - eapply IH; [by apply HI|done|done].
  - by injection Hloop as <-.
Qed.

(** With distinct, non-null ids and a reflexive tolerance test, an
    iteration that starts with an active part puts into its layer the
    current step pair of a part whose distance is least. *)
Lemma byHeight_iteration_min dir tol parts cl num r :
  NoDup (getId <$> parts) →
  (∀ p, p ∈ parts → getId p ≠ QUuid_null) →
  (∃ p, p ∈ parts ∧ active cl p) →
  byHeight_iteration dir tol parts cl num = Done r →
  ∃ ms p sp,
    getStepPairs r.1 = grouped tol (min_plane ms) cl parts ∧
    p ∈ parts ∧ tracks dir cl ms p sp ∧
    (∀ q sq, q ∈ parts → getStepPair q (cursor cl (getId q)) = Some sq →
             (stepDistance dir sp <= stepDistance dir sq)%Q).
Proof.
  intros Hnd Hids (q & Hq & Hact) Hr.
  destruct (byHeight_iteration_spec dir tol parts cl num Hnd) as (ms & Hms & Hit).
  rewrite Hit in Hr. injection Hr as <-.
  destruct (find_min_pass dir cl parts MinSearch_init)
    as (ms' & Hms' & [[_ Hnone]|(p & sp & Hp & Htr)]).
  { by destruct (Hnone eq_refl q Hq). }
  replace ms' with ms in * by congruence.
  exists ms, p, sp. split_and!; try done.
  destruct (find_min_lower_bound _ _ _ _ _ Hids Hms) as [_ Hall].
  destruct Htr as (_ & _ & _ & Hd). unfold stepDistance at 1. rewrite <- Hd.
  apply Hall.
Qed.

(** C10, as the code has it. By height, with pairwise distinct non-null
    part ids and a tolerance test under which every plane equals itself:
    the layer created by an iteration that starts while some part still has
    an unscheduled step holds the current step pair of a part whose
    centre-plane distance is least among the current layers; so every layer
    of the schedule of a parts list with at least one step pair is
    non-empty. *)
Theorem byHeight_layers_nonempty QT_NO_DEBUG fuel global_sb parts :
  kLayerOrdering global_sb = kByHeight →
  NoDup (getId <$> parts) →
  (∀ p, p ∈ parts → getId p ≠ QUuid_null) →
  (∀ pl, isEqual pl pl (kLayerGroupingTolerance global_sb) = true) →
  (∀ cl num r,
     (∃ p, p ∈ parts ∧ active cl p) →
     byHeight_iteration (stackingDirection global_sb)
       (kLayerGroupingTolerance global_sb) parts cl num = Done r →
     ∃ p sp,
       p ∈ parts ∧ getStepPair p (cursor cl (getId p)) = Some sp ∧
       (∀ q sq, q ∈ parts → getStepPair q (cursor cl (getId q)) = Some sq →
          (stepDistance (stackingDirection global_sb) sp <=
           stepDistance (stackingDirection global_sb) sq)%Q) ∧
       (getId p, sp) ∈ getStepPairs r.1) ∧
  (∀ gls,
     (∃ p, p ∈ parts ∧ 0 < countStepPairs p) →
     populateSteps QT_NO_DEBUG fuel global_sb parts = Done gls →
     Forall (λ gl, getStepPairs gl ≠ []) gls).
Proof.
  intros Hm Hnd Hids Hrefl.
  set (dir := stackingDirection global_sb).
  set (tol := kLayerGroupingTolerance global_sb) in *.
  assert (∀ cl num r,
     (∃ p, p ∈ parts ∧ active cl p) →
     byHeight_iteration dir tol parts cl num = Done r →
     ∃ p sp,
       p ∈ parts ∧ getStepPair p (cursor cl (getId p)) = Some sp ∧
       (∀ q sq, q ∈ parts → getStepPair q (cursor cl (getId q)) = Some sq →
          (stepDistance dir sp <= stepDistance dir sq)%Q) ∧
       (getId p, sp) ∈ getStepPairs r.1) as Hstep.
  { intros cl num r Hact Hr.
    destruct (byHeight_iteration_min _ _ _ _ _ _ Hnd Hids Hact Hr)
      as (ms & p & sp & -> & Hp & (Hsp & _ & Hpl & _) & Hmin).
    exists p, sp. split_and!; try done.
    apply elem_of_grouped; try done.
    unfold selected. by rewrite Hsp, Hpl, Hrefl. }
  split; [done|].
  intros gls (p & Hp & Hcount). unfold populateSteps, populateSteps_byHeight.
  rewrite Hm.
  apply (byHeight_loop_layers _ (λ cl, ∃ p, p ∈ parts ∧ active cl p)); [| |done].
  - intros cl num r Hact Hr. split.
    + destruct (Hstep _ _ _ Hact Hr) as (q & sq & _ & _ & _ & Hin).
      intros Hnil. rewrite Hnil in Hin. by apply elem_of_nil in Hin.
    + by intros ?%steps_left_after_true.
  - exists p. split; [done|]. unfold active. by rewrite cursor_init.
Qed.

(** C4, as the code has it. By height, with pairwise distinct non-null
    part ids and planes that are equal within the tolerance exactly when
    their distances along the stacking direction differ by at most the
    tolerance: in an iteration that starts with an active part, a part's
    current layer is placed in the new layer exactly when its distance
    exceeds the least distance among the current layers by at most the
    tolerance; and in the returned schedule any two entries of one layer
    have distances that differ by at most the tolerance, so layers whose
    distances differ by more are in separate layers. *)
Theorem byHeight_grouping QT_NO_DEBUG fuel global_sb parts :
  kLayerOrdering global_sb = kByHeight →
  NoDup (getId <$> parts) →
  (∀ p, p ∈ parts → getId p ≠ QUuid_null) →
  (∀ a b, isEqual a b (kLayerGroupingTolerance global_sb) = true ↔
          (Qabs (originDistance (stackingDirection global_sb) a -
                 originDistance (stackingDirection global_sb) b)
           <= kLayerGroupingTolerance global_sb)%Q) →
  (∀ cl num r,
     (∃ p, p ∈ parts ∧ active cl p) →
     byHeight_iteration (stackingDirection global_sb)
       (kLayerGroupingTolerance global_sb) parts cl num = Done r →
     ∃ pm spm,
       pm ∈ parts ∧ getStepPair pm (cursor cl (getId pm)) = Some spm ∧
       (∀ q sq, q ∈ parts → getStepPair q (cursor cl (getId q)) = Some sq →
          (stepDistance (stackingDirection global_sb) spm <=
           stepDistance (stackingDirection global_sb) sq)%Q) ∧
       (∀ p sp, p ∈ parts → getStepPair p (cursor cl (getId p)) = Some sp →
          ((getId p, sp) ∈ getStepPairs r.1 ↔
           (stepDistance (stackingDirection global_sb) sp -
            stepDistance (stackingDirection global_sb) spm
            <= kLayerGroupingTolerance global_sb)%Q))) ∧
  (∀ gls,
     populateSteps QT_NO_DEBUG fuel global_sb parts = Done gls →
     ∀ gl e1 e2,
       gl ∈ gls → e1 ∈ getStepPairs gl → e2 ∈ getStepPairs gl →
       (Qabs (stepDistance (stackingDirection global_sb) e1.2 -
              stepDistance (stackingDirection global_sb) e2.2)
        <= kLayerGroupingTolerance global_sb)%Q).
Proof.
  intros Hm Hnd Hids Hplane.
  set (dir := stackingDirection global_sb) in *.
  set (tol := kLayerGroupingTolerance global_sb) in *.
  assert (∀ cl ms sp ssp p psp,
    tracks dir cl ms p psp →
    (stepDistance dir psp <= stepDistance dir sp)%Q →
    getStepPair ssp (cursor cl (getId ssp)) = Some sp →
    (selected tol (min_plane ms) cl ssp = Some sp ↔
     (stepDistance dir sp - stepDistance dir psp <= tol)%Q)) as Hsel.
  { intros cl ms sp ssp p psp (_ & _ & Hpl & _) Hle Hsp.
    unfold selected. rewrite Hsp, Hpl.
    destruct (isEqual _ _ tol) eqn:Heq.
    - apply Hplane, Qabs_Qle_condition in Heq. fold (stepDistance dir sp) in Heq.
      fold (stepDistance dir psp) in Heq. split; [intros _; lra|done].
    - split; [done|]. intros Hd.
      assert (isEqual (shiftedPlane (printing_layer sp))
                (shiftedPlane (printing_layer psp)) tol = true); [|congruence].
      apply Hplane, Qabs_Qle_condition. fold (stepDistance dir sp).
      fold (stepDistance dir psp). lra. }
  split.
  - intros cl num r Hact Hr.
    destruct (byHeight_iteration_min _ _ _ _ _ _ Hnd Hids Hact Hr)
      as (ms & pm & spm & -> & Hpm & Htr & Hmin).
    exists pm, spm. split_and!; [done|apply Htr|done|].
    intros p sp Hp Hsp. rewrite elem_of_grouped by done.
    apply (Hsel _ _ _ _ pm); [done| |done]. by apply (Hmin p).
  - intros gls Hrun.
    assert (Forall (λ gl, ∀ e1 e2, e1 ∈ getStepPairs gl → e2 ∈ getStepPairs gl →
              (Qabs (stepDistance dir e1.2 - stepDistance dir e2.2) <= tol)%Q) gls)
      as Hall; [|intros gl e1 e2 Hgl; by apply (proj1 (Forall_forall _ _) Hall)].
    unfold populateSteps, populateSteps_byHeight in Hrun. rewrite Hm in Hrun.
    revert Hrun. apply (byHeight_loop_layers _ (λ _, True)); [|done|done].
    intros cl num r _ Hr. split; [|done].
    destruct (steps_left_after cl parts) eqn:Hleft.
    + apply steps_left_after_true in Hleft as Hact.
      destruct (byHeight_iteration_min _ _ _ _ _ _ Hnd Hids Hact Hr)
        as (ms & pm & spm & -> & Hpm & Htr & Hmin).
      assert (∀ e, e ∈ grouped tol (min_plane ms) cl parts →
        (stepDistance dir spm <= stepDistance dir e.2)%Q ∧
        (stepDistance dir e.2 - stepDistance dir spm <= tol)%Q) as Hin.
      { intros [k sp] (p & Hp & <- & Hsp)%elem_of_perPart. simpl.
        destruct (selected tol (min_plane ms) cl p) as [sp'|] eqn:Hs;
          simpl in Hsp; [|by apply elem_of_nil in Hsp].
        apply list_elem_of_singleton in Hsp. subst sp'.
        pose proof (selected_active _ _ _ _ _ Hs) as (Hlk & _ & _).
        pose proof (Hmin p sp Hp Hlk) as Hle. split; [done|].
        by apply (Hsel _ _ _ _ pm spm Htr Hle Hlk). }
      intros e1 e2 [? ?]%Hin [? ?]%Hin. apply Qabs_Qle_condition. lra.
    + unfold byHeight_iteration in Hr. apply bind_Done in Hr as (ms & _ & Hr).
      rewrite group_pass_idle in Hr.
      2:{ intros p Hp Ha.
          assert (steps_left_after cl parts = true); [|congruence].
          apply steps_left_after_true. eauto. }
      injection Hr as <-. by intros ? ? ?%elem_of_nil.
Qed.

(** C3, what the code does. When no part has a step pair (in particular
    for an empty parts list), the by-layer-number and by-part policies
    return an empty schedule, but the by-height policy returns a schedule of
    one layer, numbered 0, with no entries: its loop is entered with
    [steps_left = true] and appends a layer before it looks for steps. *)
Theorem populateSteps_no_steps QT_NO_DEBUG fuel global_sb parts :
  (∀ p, p ∈ parts → countStepPairs p = 0) →
  populateSteps QT_NO_DEBUG (S fuel) global_sb parts =
  match kLayerOrdering global_sb with
  | kByHeight => Done [GlobalLayer_create 0]
  | kByLayerNumber | kByPart => Done []
  | kUnrecognized _ => if QT_NO_DEBUG then Done [] else Fatal
  end.
Proof.
  intros Hzero. unfold populateSteps.
  destruct (kLayerOrdering global_sb).
  - assert (∀ cl p, p ∈ parts → ¬ active cl p) as Hidle.
    { intros cl p Hp. unfold active. rewrite Hzero by done. lia. }
    unfold populateSteps_byHeight. cbn [byHeight_loop]. unfold byHeight_iteration.
    destruct (find_min_pass (stackingDirection global_sb) (init_cursors parts)
                parts MinSearch_init) as (ms & -> & _).
    simpl. rewrite group_pass_idle by apply Hidle. simpl.
    destruct (steps_left_after _ parts) eqn:Hleft; [|done].
    apply steps_left_after_true in Hleft as (p & Hp & Hact).
    by destruct (Hidle (init_cursors parts) p Hp).
  - unfold populateSteps_byLayerNumber.
    replace (max_countStepPairs parts) with 0; [done|].
    rewrite max_countStepPairs_max_list.
    induction parts as [|p parts IH]; [done|]. csimpl.
    rewrite Hzero by left. apply IH. intros q Hq. apply Hzero. by right.
  - rewrite populateSteps_byPart_spec.
    replace (available parts) with (@nil (QUuid * StepPair)); [done|].
    unfold available. induction parts as [|p parts IH]; [done|].
    rewrite perPart_cons, <- IH by (intros q Hq; apply Hzero; by right).
    assert (m_step_pairs p = []) as ->; [|done].
    apply length_zero_iff_nil. apply Hzero. left.
  - unfold Q_ASSERT. by destruct QT_NO_DEBUG.
Qed.

(** C7, as the code has it. [populateStep] returns a layer exactly when no
    part id occurs twice among the dirty entries, that is, when every part
    reports at most one dirty step pair and the parts that report one have
    distinct ids; the layer then has sequence index 0 and its entries are
    exactly the dirty step pairs of all parts, so a part without dirty step
    pairs contributes nothing and an empty parts list gives an empty layer.
    Otherwise [addStepPair] refuses a second entry and the call aborts. *)
Theorem populateStep_dirty parts :
  (NoDup (dirtyPairs parts).*1 →
   populateStep parts =
   Done {| m_layer_index := 0; getStepPairs := dirtyPairs parts |}) ∧
  (¬ NoDup (dirtyPairs parts).*1 → populateStep parts = Fatal).
Proof.
  rewrite populateStep_spec. split; intros H.
  - by rewrite decide_True.
  - by rewrite decide_False.
Qed.

(** C9, as the code has it. With a policy value that is none of the three
    enumerators, [populateSteps] reaches [Q_ASSERT(false)] before any layer
    is created: in a build that checks assertions the call aborts there; in
    a build that defines [QT_NO_DEBUG] the assertion is compiled out and the
    call returns the empty schedule. *)
Theorem populateSteps_unrecognized QT_NO_DEBUG fuel global_sb parts :
  ¬ recognized (kLayerOrdering global_sb) →
  populateSteps QT_NO_DEBUG fuel global_sb parts =
  if QT_NO_DEBUG then Done [] else Fatal.
Proof.
  unfold populateSteps, recognized.
  destruct (kLayerOrdering global_sb); try (by intros []).
  intros _. unfold Q_ASSERT. by destruct QT_NO_DEBUG.
Qed.

End SchedulerFacts.

(** * The properties on parallel planes *)

Module ParallelPlanesFacts.

Import ParallelPlanes.

#[local] Open Scope Q_scope.

Lemma isEqual_spec (tol : Q) (a b : Plane) :
  isEqual a b tol = true ↔ Qabs (originDistance tt a - originDistance tt b) <= tol.
Proof. apply Qle_bool_iff. Qed.

Lemma isEqual_refl (tol : Q) : 0 <= tol → ∀ pl : Plane, isEqual pl pl tol = true.
Proof.
  intros Htol pl. apply isEqual_spec, Qabs_Qle_condition. simpl. lra.
Qed.

Lemma ids_not_null (parts : list Part) :
  forallb (λ p, negb (isNull (getId p))) parts = true →
  ∀ p, p ∈ parts → getId p ≠ QUuid_null.
Proof.
  intros Hall p Hp%list_elem_of_In Hnull.
  rewrite forallb_forall in Hall. specialize (Hall p Hp).
  unfold isNull in Hall. rewrite Hnull in Hall. done.
Qed.

Lemma keys_distinct (ks : list QUuid) :
  bool_decide (NoDup ks) = true → NoDup ks.
Proof. apply bool_decide_eq_true_1. Qed.

Lemma ids_distinct (parts : list Part) :
  bool_decide (NoDup (getId <$> parts)) = true → NoDup (getId <$> parts).
Proof. apply bool_decide_eq_true_1. Qed.

(** The schedule of parts A and B by height, tolerance 0: three layers,
    {A0, B0}, {A1}, {A2, B1}. *)
Lemma populateSteps_complete_ordered_witness :
  ∃ gls,
    populateSteps false 6 (settings kByHeight 0) [partA; partB] = Done gls ∧
    length gls = 3%nat ∧
    scheduled gls ≡ₚ available [partA; partB] ∧
    ∀ p, p ∈ [partA; partB] → stepsOf (getId p) gls = m_step_pairs p.
Proof.
  eexists. split; [vm_compute; reflexivity|]. split; [reflexivity|].
  apply (proj2 (populateSteps_complete_ordered false 6 (settings kByHeight 0)
                  [partA; partB] I (ids_distinct [partA; partB] eq_refl))).
  vm_compute. reflexivity.
Defined.

Lemma returned_layers_one_per_part_witness :
  (∃ gl, populateStep [one_dirty; partA] = Done gl ∧ one_per_part gl) ∧
  (∃ gls, populateSteps false 6 (settings kByHeight 0) [partA; partB] = Done gls ∧
          Forall one_per_part gls).
Proof.
  split; eexists; (split; [vm_compute; reflexivity|]).
  - apply (proj1 (returned_layers_one_per_part [one_dirty; partA])).
    vm_compute. reflexivity.
  - apply (proj2 (returned_layers_one_per_part [partA; partB])
             false 6%nat (settings kByHeight 0)).
    vm_compute. reflexivity.
Defined.

Lemma populateSteps_no_steps_witness :
  populateSteps false 1 (settings kByHeight 0) [] = Done [GlobalLayer_create 0] ∧
  populateSteps false 1 (settings kByLayerNumber 0) [] = Done [] ∧
  populateSteps false 1 (settings kByPart 0) [] = Done [].
Proof.
  split_and!.
  - apply (populateSteps_no_steps false 0 (settings kByHeight 0) []).
    intros p Hp. by apply elem_of_nil in Hp.
  - apply (populateSteps_no_steps false 0 (settings kByLayerNumber 0) []).
    intros p Hp. by apply elem_of_nil in Hp.
  - apply (populateSteps_no_steps false 0 (settings kByPart 0) []).
    intros p Hp. by apply elem_of_nil in Hp.
Defined.

Lemma byHeight_grouping_witness :
  ∃ gls,
    populateSteps false 4 (settings kByHeight 10) [low; mid; high] = Done gls ∧
    ∀ gl e1 e2, gl ∈ gls → e1 ∈ getStepPairs gl → e2 ∈ getStepPairs gl →
      Qabs (stepDistance tt e1.2 - stepDistance tt e2.2) <= 10.
Proof.
  eexists. split; [vm_compute; reflexivity|].
  apply (proj2 (byHeight_grouping false 4 (settings kByHeight 10) [low; mid; high]
                  eq_refl
                  (ids_distinct [low; mid; high] eq_refl)
                  (ids_not_null [low; mid; high] eq_refl)
                  (isEqual_spec 10))).
  vm_compute. reflexivity.
Defined.

(** Two parts with four and two steps by layer number: four layers, the
    first two with both parts, the last two with the first part only. *)
Lemma byLayerNumber_schedule_witness :
  ∃ gls,
    populateSteps false 0 (settings kByLayerNumber 0) [part4; part2] = Done gls ∧
    length gls = max_list (countStepPairs <$> [part4; part2]) ∧
    ∀ i gl, gls !! i = Some gl →
      m_layer_index gl = i ∧
      ∀ k sp, (k, sp) ∈ getStepPairs gl ↔
              ∃ p, p ∈ [part4; part2] ∧ getId p = k ∧ (i < countStepPairs p)%nat ∧
                   getStepPair p i = Some sp.
Proof.
  eexists. split; [vm_compute; reflexivity|].
  apply (proj2 (byLayerNumber_schedule false 0 (settings kByLayerNumber 0)
                  [part4; part2] eq_refl)).
  vm_compute. reflexivity.
Defined.

Lemma byPart_schedule_witness :
  ∃ gls,
    populateSteps false 0 (settings kByPart 0) [part4; part2] = Done gls ∧
    length gls = sum_list (countStepPairs <$> [part4; part2]) ∧
    (∀ i, gls !! i =
          (λ e, {| m_layer_index := i; getStepPairs := [e] |})
            <$> available [part4; part2] !! i) ∧
    scheduled gls = available [part4; part2].
Proof.
  apply (byPart_schedule false 0 (settings kByPart 0) [part4; part2]).
  reflexivity.
Defined.

Lemma populateStep_dirty_witness :
  populateStep [one_dirty; partA] =
  Done {| m_layer_index := 0; getStepPairs := dirtyPairs [one_dirty; partA] |}.
Proof.
  apply (proj1 (populateStep_dirty [one_dirty; partA])).
  apply keys_distinct. vm_compute. reflexivity.
Defined.

Lemma byHeight_terminates_witness :
  populateSteps false 6 (settings kByHeight 0) [partA; partB] ≠ OutOfFuel.
Proof.
  apply (proj1 (byHeight_terminates false 6 (settings kByHeight 0) [partA; partB]
                  eq_refl (isEqual_refl 0 (Qle_refl 0)))).
  vm_compute. lia.
Defined.

Lemma populateSteps_unrecognized_witness :
  populateSteps false 6 (settings (kUnrecognized 7) 0) [partA; partB] = Fatal.
Proof.
  apply (populateSteps_unrecognized false 6 (settings (kUnrecognized 7) 0)
           [partA; partB]).
  intros H. exact H.
Defined.

Lemma byHeight_layers_nonempty_witness :
  ∃ gls,
    populateSteps false 6 (settings kByHeight 0) [partA; partB] = Done gls ∧
    Forall (λ gl, getStepPairs gl ≠ []) gls.
Proof.
  eexists. split; [vm_compute; reflexivity|].
  apply (proj2 (byHeight_layers_nonempty false 6 (settings kByHeight 0)
                  [partA; partB] eq_refl
                  (ids_distinct [partA; partB] eq_refl)
                  (ids_not_null [partA; partB] eq_refl)
                  (isEqual_refl 0 (Qle_refl 0)))).
  - exists partA. split; [left|]. vm_compute. lia.
  - vm_compute. reflexivity.
Defined.

(** ** Where the specification overstates *)

(** Against C4 as stated: with tolerance 10 the current layers of [mid] (at
    8) and [high] (at 15) differ by less than the tolerance, yet they end in
    different layers, because [mid] is grouped with the lowest layer, that
    of [low] (at 0), and [high] is more than the tolerance above it. *)
Lemma within_tolerance_not_grouped :
  populateSteps false 4 (settings kByHeight 10) [low; mid; high] =
    Done [ {| m_layer_index := 0;
              getStepPairs := [(1%N, step_at 0 2); (2%N, step_at 8 2)] |};
           {| m_layer_index := 1;
              getStepPairs := [(3%N, step_at 15 2)] |} ] ∧
  Qabs (stepDistance tt (step_at 8 2) - stepDistance tt (step_at 15 2)) < 10 ∧
  ¬ ∃ gl,
      gl ∈ [ {| m_layer_index := 0;
                getStepPairs := [(1%N, step_at 0 2); (2%N, step_at 8 2)] |};
             {| m_layer_index := 1;
                getStepPairs := [(3%N, step_at 15 2)] |} ] ∧
      (2%N, step_at 8 2) ∈ getStepPairs gl ∧
      (3%N, step_at 15 2) ∈ getStepPairs gl.
Proof.
  split_and!.
  - vm_compute. reflexivity.
  - vm_compute. reflexivity.
  - intros (gl & Hgl & Hmid & Hhigh).
    apply elem_of_cons in Hgl as [->|Hgl]; simpl in *.
    + apply elem_of_cons in Hhigh as [[=]|Hhigh].
      apply elem_of_cons in Hhigh as [[=]|Hhigh].
      by apply elem_of_nil in Hhigh.
    + apply list_elem_of_singleton in Hgl as ->. simpl in *.
      apply list_elem_of_singleton in Hmid. discriminate Hmid.
Qed.

(** Against C7 as stated: for a part that reports two dirty step pairs
    [populateStep] returns no layer at all. *)
Lemma populateStep_two_dirty_aborts :
  populateStep [two_dirty] = Fatal ∧
  ¬ ∃ gl, populateStep [two_dirty] = Done gl ∧
          m_layer_index gl = 0%nat ∧
          getStepPairs gl ≡ₚ dirtyPairs [two_dirty].
Proof.
  split; [vm_compute; reflexivity|].
  intros (gl & Hgl & _). vm_compute in Hgl. discriminate Hgl.
Qed.

(** Against C9 as stated: in a build that defines [QT_NO_DEBUG] the call
    with an unrecognized policy returns an empty schedule. *)
Lemma unrecognized_policy_returns_without_assertions :
  ¬ recognized (kLayerOrdering (settings (kUnrecognized 7) 0)) ∧
  populateSteps true 6 (settings (kUnrecognized 7) 0) [partA; partB] = Done [] ∧
  populateSteps true 6 (settings (kUnrecognized 7) 0) [partA; partB] ≠ Fatal.
Proof. split_and!; [by intros []|done|done]. Qed.

(** With a negative tolerance no plane equals itself, not even the one the
    minimum search ended on: an iteration on the part [low] alone selects
    nothing, builds an empty layer and leaves the cursor where it was. *)
Lemma negative_tolerance_iteration num :
  byHeight_iteration tt (-1) [low] (init_cursors [low]) num =
  Done ({| m_layer_index := num; getStepPairs := [] |}, init_cursors [low]).
Proof. vm_compute. reflexivity. Qed.

Lemma negative_tolerance_loop fuel num acc :
  byHeight_loop fuel tt (-1) [low] (init_cursors [low]) num acc = OutOfFuel.
Proof.
  revert num acc. induction fuel as [|fuel IH]; intros num acc; [done|].
  cbn [byHeight_loop]. rewrite negative_tolerance_iteration.
  change (byHeight_loop fuel tt (-1) [low] (init_cursors [low]) (S num)
            (acc ++ [{| m_layer_index := num; getStepPairs := [] |}]) = OutOfFuel).
  apply IH.
Qed.

(** Against C8 as stated: with the tolerance -1 the plane of the minimum
    does not match itself, no cursor ever moves, and the loop on the
    one-step part [low] runs out of every amount of fuel. *)
Lemma negative_tolerance_never_terminates :
  isEqual (shiftedPlane (printing_layer (step_at 0 2)))
          (shiftedPlane (printing_layer (step_at 0 2))) (-1) = false ∧
  ∀ fuel, populateSteps false fuel (settings kByHeight (-1)) [low] = OutOfFuel.
Proof.
  split; [vm_compute; reflexivity|].
  intros fuel. apply negative_tolerance_loop.
Qed.

(** Against C10 as stated: with the tolerance -1 the part [low] still has
    its one step unscheduled, yet the layer the iteration creates is empty,
    and the step is still unscheduled afterwards. *)
Lemma negative_tolerance_empty_layer :
  active (init_cursors [low]) low ∧
  ∃ r, byHeight_iteration tt (-1) [low] (init_cursors [low]) 0 = Done r ∧
       getStepPairs r.1 = [] ∧
       active r.2 low.
Proof.
  split; [vm_compute; lia|].
  eexists. split; [apply negative_tolerance_iteration|].
  split; [reflexivity|]. vm_compute. lia.
Qed.

End ParallelPlanesFacts.

(** * Further properties of the scheduler *)

Section SchedulerOrderFacts.

Context `{G : Geometry}.

Implicit Types (p part : Part) (gl : GlobalLayer) (cl : gmap N nat).
Implicit Types (es : list (QUuid * StepPair)) (parts : list Part).

(** ** Sequence indices *)

Lemma group_body_index tol mp acc p acc' :
  group_body tol mp acc p = Done acc' → m_layer_index acc'.1 = m_layer_index acc.1.
Proof.
  destruct acc as [gl cl]. rewrite group_body_cases.
  destruct (selected tol mp cl p); [|by intros [= <-]].
  intros (gl' & [_ ->]%addStepPair_Done & [= <-])%bind_Done. done.
Qed.

Lemma byHeight_iteration_index dir tol parts cl num r :
  byHeight_iteration dir tol parts cl num = Done r → m_layer_index r.1 = num.
Proof.
  unfold byHeight_iteration. intros (ms & _ & Hr)%bind_Done. revert Hr.
  apply (for_each_invariant (λ a, m_layer_index a.1 = num)); [|done].
  intros a p a' _ <- Hbody. by eapply group_body_index.
Qed.

Lemma byHeight_loop_indices fuel dir tol parts cl num acc gls :
  num = length acc →
  (∀ i gl, acc !! i = Some gl → m_layer_index gl = i) →
  byHeight_loop fuel dir tol parts cl num acc = Done gls →
  ∀ i gl, gls !! i = Some gl → m_layer_index gl = i.
Proof.
  revert cl num acc. induction fuel as [|fuel IH]; intros cl num acc -> Hacc; [done|].
  simpl. intros (r & Hr & Hloop)%bind_Done.
  assert (∀ i gl, (acc ++ [r.1]) !! i = Some gl → m_layer_index gl = i) as Hacc'.
  { intros i gl [?|[Hle Hr1]]%lookup_app_Some; [by apply Hacc|].
    apply list_lookup_singleton_Some in Hr1 as [Hi <-].
    apply byHeight_iteration_index in Hr. lia. }
  destruct (steps_left_after r.2 parts).
  - eapply IH; [|done|done]. rewrite length_app. simpl. lia.
  - by injection Hloop as <-.
Qed.

(** X1. In every schedule that [populateSteps] returns, whatever the policy,
    the layer at position [i] of the list carries the sequence index [i]:
    the indices count up from 0 without gaps. *)
Theorem populateSteps_indices QT_NO_DEBUG fuel global_sb parts gls :
  populateSteps QT_NO_DEBUG fuel global_sb parts = Done gls →
  ∀ i gl, gls !! i = Some gl → m_layer_index gl = i.
Proof.
  unfold populateSteps. destruct (kLayerOrdering global_sb).
  - by apply byHeight_loop_indices.
  - rewrite populateSteps_byLayerNumber_spec. destruct (decide _); [|done].
    intros [= <-] i gl. rewrite list_lookup_fmap.
    intros (step & Hstep & ->)%fmap_Some. by apply lookup_seq in Hstep as [-> _].
  - rewrite populateSteps_byPart_spec. intros [= <-] i gl.
    rewrite singleLayers_lookup. by intros (e & _ & ->)%fmap_Some.
  - intros (_ & _ & [= <-])%bind_Done. done.
Qed.

(** ** How many layers a schedule has *)

Lemma entriesOf_one_per_part k gl :
  one_per_part gl → length (entriesOf k (getStepPairs gl)) ≤ 1.
Proof.
  unfold one_per_part, entriesOf. generalize (getStepPairs gl). intros es.
  induction es as [|[k' v] es IH]; csimpl; [lia|].
  intros [Hk' Hnd]%NoDup_cons. destruct (decide (k' = k)) as [->|].
  - rewrite filter_cons_True by done. simpl.
    replace (filter (λ e : QUuid * StepPair, e.1 = k) es) with (@nil (QUuid * StepPair));
      [simpl; lia|].
    symmetry. apply elem_of_nil_inv. intros [k2 v2] [Hk Hin]%list_elem_of_filter.
    simpl in Hk. subst k2. apply Hk', list_elem_of_fmap. by exists (k, v2).
  - rewrite filter_cons_False by done. by apply IH.
Qed.

Lemma stepsOf_length_le k gls :
  Forall one_per_part gls → length (stepsOf k gls) ≤ length gls.
Proof.
  induction 1 as [|gl gls Hgl _ IH]; [done|].
  rewrite stepsOf_cons, length_app, length_fmap. simpl.
  pose proof (entriesOf_one_per_part k gl Hgl). lia.
Qed.

(** X2. For every recognized policy and parts with pairwise distinct ids, a
    returned schedule has at least as many layers as any part has step
    pairs: a layer takes at most one step pair of a part. *)
Theorem populateSteps_at_least_max QT_NO_DEBUG fuel global_sb parts gls :
  recognized (kLayerOrdering global_sb) →
  NoDup (getId <$> parts) →
  populateSteps QT_NO_DEBUG fuel global_sb parts = Done gls →
  ∀ p, p ∈ parts → countStepPairs p ≤ length gls.
Proof.
  intros Hrec Hnd Hrun p Hp.
  assert (Forall one_per_part gls ∧ stepsOf (getId p) gls = m_step_pairs p)
    as [Hone Hsteps].
  { unfold populateSteps in Hrun. destruct (kLayerOrdering global_sb); [..|done].
    - split.
      + unfold populateSteps_byHeight in Hrun.
        revert Hrun. by apply byHeight_loop_one_per_part.
      + by apply (proj2 (populateSteps_byHeight_complete _ _ _ _ Hnd Hrun)).
    - split; [by apply (byLayerNumber_one_per_part parts)|].
      by apply (proj2 (populateSteps_byLayerNumber_complete _ _ Hnd Hrun)).
    - split; [by apply (byPart_one_per_part parts)|].
      by apply (proj2 (populateSteps_byPart_complete _ _ Hnd Hrun)). }
  unfold countStepPairs. rewrite <- Hsteps. by apply stepsOf_length_le.
Qed.

Lemma byHeight_iteration_nonempty dir tol parts cl num r :
  NoDup (getId <$> parts) →
  (∀ pl, isEqual pl pl tol = true) →
  (∃ p, p ∈ parts ∧ active cl p) →
  byHeight_iteration dir tol parts cl num = Done r →
  getStepPairs r.1 ≠ [].
Proof.
  intros Hnd Hrefl (q & Hq & Hact) Hr.
  destruct (byHeight_iteration_spec dir tol parts cl num Hnd) as (ms & Hms & Hit).
  rewrite Hit in Hr. injection Hr as <-. simpl.
  destruct (find_min_pass dir cl parts MinSearch_init)
    as (ms' & Hms' & [[_ Hnone]|(p & sp & Hp & Hsp & _ & Hpl & _)]).
  { by destruct (Hnone eq_refl q Hq). }
  replace ms' with ms in * by congruence.
  assert ((getId p, sp) ∈ grouped tol (min_plane ms) cl parts) as Hin.
  { apply elem_of_grouped; try done. unfold selected. by rewrite Hsp, Hpl, Hrefl. }
  intros Hnil. rewrite Hnil in Hin. by apply elem_of_nil in Hin.
Qed.

Lemma scheduled_length_ge gls :
  Forall (λ gl, getStepPairs gl ≠ []) gls → length gls ≤ length (scheduled gls).
Proof.
  induction 1 as [|gl gls Hgl _ IH]; [done|].
  unfold scheduled in *. simpl. rewrite length_app.
  destruct (getStepPairs gl); [done|]. simpl. lia.
Qed.

(** X3. By height, for parts with pairwise distinct ids of which at least
    one has a step pair, and a tolerance test under which a plane equals
    itself: a returned schedule has no more layers than the parts have step
    pairs in total, since every layer takes at least one. *)
Theorem byHeight_at_most_total QT_NO_DEBUG fuel global_sb parts gls :
  kLayerOrdering global_sb = kByHeight →
  NoDup (getId <$> parts) →
  (∀ pl, isEqual pl pl (kLayerGroupingTolerance global_sb) = true) →
  (∃ p, p ∈ parts ∧ 0 < countStepPairs p) →
  populateSteps QT_NO_DEBUG fuel global_sb parts = Done gls →
  length gls ≤ sum_list (countStepPairs <$> parts).
Proof.
  intros Hm Hnd Hrefl (p & Hp & Hcount). unfold populateSteps. rewrite Hm.
  intros Hrun. rewrite <- available_length.
  destruct (populateSteps_byHeight_complete _ _ _ _ Hnd Hrun) as [Hkeys Hsteps].
  rewrite <- (schedule_complete parts gls Hnd Hkeys Hsteps).
  apply scheduled_length_ge. revert Hrun. unfold populateSteps_byHeight.
  apply (byHeight_loop_layers _ (λ cl, ∃ p, p ∈ parts ∧ active cl p)); [| |done].
  - intros cl num r Hact Hr. split.
    + by eapply byHeight_iteration_nonempty.
    + by intros ?%steps_left_after_true.
  - exists p. split; [done|]. unfold active. by rewrite cursor_init.
Qed.

(** ** By height on aligned parts *)

Lemma perPart_ext (f g : Part → list StepPair) parts :
  (∀ p, p ∈ parts → f p = g p) → perPart f parts = perPart g parts.
Proof.
  induction parts as [|q parts IH]; intros Hfg; [done|].
  rewrite !perPart_cons, Hfg, IH; [done| |left].
  intros p Hp. apply Hfg. by right.
Qed.

Lemma countStepPairs_le_max parts p :
  p ∈ parts → countStepPairs p ≤ max_countStepPairs parts.
Proof.
  intros Hp. rewrite max_countStepPairs_max_list. apply max_list_elem_of_le.
  apply list_elem_of_fmap. eauto.
Qed.

Lemma max_countStepPairs_attained parts :
  0 < max_countStepPairs parts →
  ∃ p, p ∈ parts ∧ countStepPairs p = max_countStepPairs parts.
Proof.
  rewrite max_countStepPairs_max_list. intros Hpos.
  assert (countStepPairs <$> parts ≠ []) as Hne.
  { intros Hnil. rewrite Hnil in Hpos. simpl in Hpos. lia. }
  apply max_list_elem_of, list_elem_of_fmap in Hne as (p & Heq & Hp). eauto.
Qed.

(** While every part stands at step [k] or is exhausted, an iteration on
    aligned parts selects every part that has a step pair at [k]. *)
Lemma selected_aligned dir tol parts cl k ms :
  aligned tol parts →
  (∀ p, p ∈ parts → cursor cl (getId p) = k `min` countStepPairs p) →
  (∃ q sq, q ∈ parts ∧ tracks dir cl ms q sq) →
  ∀ p, p ∈ parts → selected tol (min_plane ms) cl p = getStepPair p k.
Proof.
  intros Hal Hcur (q & sq & Hq & Hsq & _ & Hpl & _) p Hp.
  assert (getStepPair q k = Some sq) as Hqk.
  { pose proof (lookup_lt_Some _ _ _ Hsq) as Hlt. rewrite (Hcur q Hq) in Hsq, Hlt.
    unfold countStepPairs in *. by replace k with (k `min` length (m_step_pairs q)) by lia. }
  unfold selected. rewrite (Hcur p Hp).
  destruct (decide (k < countStepPairs p)) as [Hlt|Hge].
  - replace (k `min` countStepPairs p) with k by lia.
    destruct (getStepPair p k) as [sp|] eqn:Hsp; [|done].
    by rewrite Hpl, (Hal k p q sp sq).
  - replace (k `min` countStepPairs p) with (countStepPairs p) by lia.
    unfold getStepPair, countStepPairs in *.
    rewrite !(proj2 (lookup_ge_None _ _)) by lia. done.
Qed.

Lemma byHeight_aligned_loop fuel dir tol parts k cl acc :
  NoDup (getId <$> parts) →
  aligned tol parts →
  k < max_countStepPairs parts →
  max_countStepPairs parts - k ≤ fuel →
  (∀ p, p ∈ parts → cursor cl (getId p) = k `min` countStepPairs p) →
  byHeight_loop fuel dir tol parts cl k acc =
  Done (acc ++ (layerAt parts <$> seq k (max_countStepPairs parts - k))).
Proof.
  intros Hnd Hal. revert k cl acc.
  induction fuel as [|fuel IH]; intros k cl acc Hk Hfuel Hcur; [lia|].
  destruct (max_countStepPairs_attained parts) as (pm & Hpm & Hmax); [lia|].
  simpl. destruct (byHeight_iteration_spec dir tol parts cl k Hnd) as (ms & Hms & ->).
  simpl.
  assert (∀ p, p ∈ parts → selected tol (min_plane ms) cl p = getStepPair p k) as Hsel.
  { apply (selected_aligned dir); [done|done|].
    destruct (find_min_pass dir cl parts MinSearch_init)
      as (ms' & Hms' & [[_ Hnone]|(q & sq & Hq & Htr)]).
    - destruct (Hnone eq_refl pm Hpm). unfold active. rewrite Hcur by done. lia.
    - replace ms' with ms in * by congruence. eauto. }
  assert (grouped tol (min_plane ms) cl parts = stepsAt k parts) as ->.
  { unfold grouped, stepsAt. apply perPart_ext. intros p Hp. by rewrite Hsel. }
  set (cl' := advance tol (min_plane ms) cl parts cl).
  assert (∀ p, p ∈ parts → cursor cl' (getId p) = S k `min` countStepPairs p) as Hcur'.
  { intros p Hp. unfold cl'. rewrite cursor_advance_in, Hsel, Hcur by done.
    destruct (getStepPair p k) as [sp|] eqn:Hsp.
    - apply lookup_lt_Some in Hsp. unfold countStepPairs. lia.
    - apply lookup_ge_None in Hsp. unfold countStepPairs. lia. }
  fold (layerAt parts k).
  destruct (steps_left_after cl' parts) eqn:Hleft.
  - apply steps_left_after_true in Hleft as (p & Hp & Hact).
    unfold active in Hact. rewrite Hcur' in Hact by done.
    pose proof (countStepPairs_le_max parts p Hp).
    rewrite (IH (S k)) by (try done; lia).
    rewrite <- app_assoc. do 2 f_equal.
    replace (max_countStepPairs parts - k) with (S (max_countStepPairs parts - S k))
      by lia. done.
  - assert (max_countStepPairs parts - k = 1) as ->; [|done].
    destruct (decide (S k < max_countStepPairs parts)); [|lia].
    assert (steps_left_after cl' parts = true); [|congruence].
    apply steps_left_after_true. exists pm. split; [done|].
    unfold active. rewrite Hcur' by done. lia.
Qed.

(** X4. For parts with pairwise distinct ids of which at least one has a
    step pair, and fuel for as many iterations as the longest part has
    steps: when the parts are aligned, that is, at every step index the
    centre planes of the parts that have such a step are equal within the
    tolerance, the by-height policy returns the very schedule of the
    by-layer-number policy: layer [k] holds step [k] of every part that has
    one. (Without a step pair the two differ: by height returns one empty
    layer, by layer number none.) *)
Theorem byHeight_aligned_is_byLayerNumber QT_NO_DEBUG fuel sb_height sb_number parts :
  kLayerOrdering sb_height = kByHeight →
  kLayerOrdering sb_number = kByLayerNumber →
  NoDup (getId <$> parts) →
  aligned (kLayerGroupingTolerance sb_height) parts →
  (∃ p, p ∈ parts ∧ 0 < countStepPairs p) →
  max_list (countStepPairs <$> parts) ≤ fuel →
  populateSteps QT_NO_DEBUG fuel sb_height parts =
    Done (layerAt parts <$> seq 0 (max_list (countStepPairs <$> parts))) ∧
  populateSteps QT_NO_DEBUG fuel sb_number parts =
    populateSteps QT_NO_DEBUG fuel sb_height parts.
Proof.
  intros Hh Hn Hnd Hal (p & Hp & Hcount) Hfuel.
  rewrite <- max_countStepPairs_max_list in *.
  pose proof (countStepPairs_le_max parts p Hp) as Hle.
  assert (populateSteps QT_NO_DEBUG fuel sb_height parts =
          Done (layerAt parts <$> seq 0 (max_countStepPairs parts))) as Hheight.
  { unfold populateSteps, populateSteps_byHeight. rewrite Hh.
    rewrite (byHeight_aligned_loop _ _ _ _ 0); try done; try lia.
    - simpl. by rewrite Nat.sub_0_r.
    - intros q _. rewrite cursor_init. lia. }
  split; [done|]. rewrite Hheight. unfold populateSteps. rewrite Hn.
  rewrite populateSteps_byLayerNumber_spec, decide_True; [done|].
  apply Forall_forall. intros step _. by apply perPart_NoDup.
Qed.

(** ** By height on ascending parts *)

Lemma byHeight_loop_acc fuel dir tol parts cl num acc :
  byHeight_loop fuel dir tol parts cl num acc =
  rest ← byHeight_loop fuel dir tol parts cl num []; Done (acc ++ rest).
Proof.
  revert cl num acc. induction fuel as [|fuel IH]; intros cl num acc; [done|].
  simpl. destruct (byHeight_iteration dir tol parts cl num) as [r| |]; simpl; try done.
  destruct (steps_left_after r.2 parts); simpl; [|done].
  rewrite (IH _ _ (acc ++ [r.1])), (IH _ _ [r.1]).
  destruct (byHeight_loop fuel dir tol parts r.2 (S num) []); simpl; try done.
  by rewrite <- app_assoc.
Qed.

(** A distance at or below every current layer stays at or below every
    entry that the loop schedules from there on, when the parts ascend. *)
Lemma byHeight_loop_lower_bound fuel dir tol parts cl num gls (L : Q) :
  NoDup (getId <$> parts) →
  (∀ p, p ∈ parts → ascending dir p) →
  (∀ p sp, p ∈ parts → getStepPair p (cursor cl (getId p)) = Some sp →
           (L <= stepDistance dir sp)%Q) →
  byHeight_loop fuel dir tol parts cl num [] = Done gls →
  Forall (λ gl, ∀ e, e ∈ getStepPairs gl → (L <= stepDistance dir e.2)%Q) gls.
Proof.
  intros Hnd Hasc Hcl.
  apply (byHeight_loop_layers _
    (λ cl, ∀ p sp, p ∈ parts → getStepPair p (cursor cl (getId p)) = Some sp →
                   (L <= stepDistance dir sp)%Q)); [|done|done].
  clear cl num Hcl. intros cl num r Hcl Hr.
  destruct (byHeight_iteration_spec dir tol parts cl num Hnd) as (ms & _ & Hit).
  rewrite Hit in Hr. injection Hr as <-. simpl. split.
  - intros [k sp] (p & Hp & <- & Hsp)%elem_of_perPart. simpl.
    destruct (selected tol (min_plane ms) cl p) as [sp'|] eqn:Hsel; simpl in Hsp;
      [|by apply elem_of_nil in Hsp].
    apply list_elem_of_singleton in Hsp. subst sp'.
    apply selected_active in Hsel as (Hcur & _ & _). by apply (Hcl p).
  - intros _ p sp Hp. rewrite cursor_advance_in by done.
    destruct (selected tol (min_plane ms) cl p) as [sp0|] eqn:Hsel; [|by apply Hcl].
    apply selected_active in Hsel as (Hcur & _ & _). intros Hnext.
    eapply Qle_trans; [by apply (Hcl p sp0)|].
    apply (Hasc p Hp (cursor cl (getId p)) (S (cursor cl (getId p)))); [lia|done..].
Qed.

Lemma byHeight_loop_ascending fuel dir tol parts cl num gls :
  NoDup (getId <$> parts) →
  (∀ p, p ∈ parts → getId p ≠ QUuid_null) →
  (∀ pl, isEqual pl pl tol = true) →
  (∀ p, p ∈ parts → ascending dir p) →
  byHeight_loop fuel dir tol parts cl num [] = Done gls →
  ∀ i j gi gj ej,
    i < j → gls !! i = Some gi → gls !! j = Some gj → ej ∈ getStepPairs gj →
    ∃ ei, ei ∈ getStepPairs gi ∧ (stepDistance dir ei.2 <= stepDistance dir ej.2)%Q.
Proof.
  intros Hnd Hids Hrefl Hasc. revert cl num gls.
  induction fuel as [|fuel IH]; intros cl num gls Hrun; [done|].
  pose proof Hrun as Hall. simpl in Hrun.
  apply bind_Done in Hrun as (r & Hr & Hloop).
  destruct (steps_left_after r.2 parts) eqn:Hleft.
  2:{ injection Hloop as <-. intros i [|j] gi gj ej Hij Hi Hj; [lia|done]. }
  rewrite byHeight_loop_acc in Hloop.
  apply bind_Done in Hloop as (rest & Hrest & [= <-]).
  intros [|i] [|j] gi gj ej Hij Hi Hj Hej; try lia; simpl in Hi, Hj.
  - injection Hi as <-.
    assert (∃ p, p ∈ parts ∧ active cl p) as Hact.
    { destruct (steps_left_after cl parts) eqn:Hcl; [by apply steps_left_after_true|].
      unfold byHeight_iteration in Hr. apply bind_Done in Hr as (ms & _ & Hg).
      rewrite group_pass_idle in Hg.
      - injection Hg as <-. simpl in Hleft. congruence.
      - intros q Hq Hqa.
        assert (steps_left_after cl parts = true); [|congruence].
        apply steps_left_after_true. eauto. }
    destruct (byHeight_iteration_min _ _ _ _ _ _ Hnd Hids Hact Hr)
      as (ms & p & sp & Hentries & Hp & (Hsp & _ & Hpl & _) & Hmin).
    exists (getId p, sp). split.
    + rewrite Hentries. apply elem_of_grouped; try done.
      unfold selected. by rewrite Hsp, Hpl, Hrefl.
    + pose proof (byHeight_loop_lower_bound (S fuel) dir tol parts cl num
                    (r.1 :: rest) (stepDistance dir sp)
                    Hnd Hasc (λ q sq Hq Hsq, Hmin q sq Hq Hsq) Hall) as Hlow.
      rewrite Forall_forall in Hlow.
      apply (Hlow gj); [|done].
      apply list_elem_of_lookup. by exists (S j).
  - apply (IH _ _ _ Hrest i j gi gj ej); [lia|done..].
Qed.

(** X5. By height, when every part's centre-plane distances do not decrease
    with the step index (parts with pairwise distinct non-null ids, a
    tolerance test under which a plane equals itself): in a returned schedule
    no entry of a later layer lies below the lowest entry of an earlier
    layer. *)
Theorem byHeight_layers_ascend QT_NO_DEBUG fuel global_sb parts gls :
  kLayerOrdering global_sb = kByHeight →
  NoDup (getId <$> parts) →
  (∀ p, p ∈ parts → getId p ≠ QUuid_null) →
  (∀ pl, isEqual pl pl (kLayerGroupingTolerance global_sb) = true) →
  (∀ p, p ∈ parts → ascending (stackingDirection global_sb) p) →
  populateSteps QT_NO_DEBUG fuel global_sb parts = Done gls →
  ∀ i j gi gj ej,
    i < j → gls !! i = Some gi → gls !! j = Some gj → ej ∈ getStepPairs gj →
    ∃ ei, ei ∈ getStepPairs gi ∧
          (stepDistance (stackingDirection global_sb) ei.2 <=
           stepDistance (stackingDirection global_sb) ej.2)%Q.
Proof.
  intros Hm Hnd Hids Hrefl Hasc. unfold populateSteps, populateSteps_byHeight.
  rewrite Hm. by apply byHeight_loop_ascending.
Qed.

(** ** By height on a permuted parts list *)

Lemma selected_by_distance dir tol cl ms p sp q :
  (∀ a b, isEqual a b tol = true ↔
          (Qabs (originDistance dir a - originDistance dir b) <= tol)%Q) →
  tracks dir cl ms p sp →
  selected tol (min_plane ms) cl q =
  match getStepPair q (cursor cl (getId q)) with
  | Some sq =>
      if Qle_bool (Qabs (stepDistance dir sq - min_dist ms)) tol then Some sq else None
  | None => None
  end.
Proof.
  intros Hplane (_ & _ & Hpl & Hd). unfold selected.
  destruct (getStepPair q _) as [sq|]; [|done].
  assert (isEqual (shiftedPlane (printing_layer sq)) (min_plane ms) tol =
          Qle_bool (Qabs (stepDistance dir sq - min_dist ms)) tol) as ->; [|done].
  apply eq_true_iff_eq. rewrite Hplane, Qle_bool_iff, Hpl, Hd. done.
Qed.

Lemma within_tolerance_Qeq (d m m' tol : Q) :
  (m == m')%Q →
  Qle_bool (Qabs (d - m)) tol = Qle_bool (Qabs (d - m')) tol.
Proof.
  intros Hm. apply eq_true_iff_eq. rewrite !Qle_bool_iff. by rewrite Hm.
Qed.

Lemma steps_left_after_perm cl cl' parts parts' :
  parts ≡ₚ parts' → (∀ k, cursor cl k = cursor cl' k) →
  steps_left_after cl parts = steps_left_after cl' parts'.
Proof.
  intros Hperm Hcl. apply eq_true_iff_eq. rewrite !steps_left_after_true.
  unfold active. split; intros (p & Hp & Ha); exists p.
  - rewrite <- Hperm, <- Hcl. done.
  - rewrite Hperm, Hcl. done.
Qed.

Lemma byHeight_iteration_perm dir tol parts parts' cl cl' num :
  (∀ a b, isEqual a b tol = true ↔
          (Qabs (originDistance dir a - originDistance dir b) <= tol)%Q) →
  NoDup (getId <$> parts) →
  (∀ p, p ∈ parts → getId p ≠ QUuid_null) →
  parts ≡ₚ parts' →
  (∀ k, cursor cl k = cursor cl' k) →
  ∃ r r',
    byHeight_iteration dir tol parts cl num = Done r ∧
    byHeight_iteration dir tol parts' cl' num = Done r' ∧
    same_layer r.1 r'.1 ∧
    ∀ k, cursor r.2 k = cursor r'.2 k.
Proof.
  intros Hplane Hnd Hids Hperm Hcl.
  assert (NoDup (getId <$> parts')) as Hnd' by by rewrite <- Hperm.
  assert (∀ p, p ∈ parts' → getId p ≠ QUuid_null) as Hids'.
  { intros p Hp. apply Hids. by rewrite Hperm. }
  destruct (byHeight_iteration_spec dir tol parts cl num Hnd) as (ms & Hms & ->).
  destruct (byHeight_iteration_spec dir tol parts' cl' num Hnd') as (ms' & Hms' & ->).
  eexists _, _. split; [done|]. split; [done|]. simpl.
  assert (∀ q, q ∈ parts →
    selected tol (min_plane ms) cl q = selected tol (min_plane ms') cl' q) as Hsel.
  { intros q Hq.
    destruct (find_min_pass dir cl parts MinSearch_init)
      as (m1 & Hm1 & [[_ Hnone]|(p & sp & Hp & Htr)]);
      replace m1 with ms in * by congruence.
    - unfold selected. rewrite <- Hcl.
      destruct (getStepPair q _) eqn:Hlk; [|done].
      destruct (Hnone eq_refl q Hq). apply active_getStepPair. eauto.
    - destruct (find_min_pass dir cl' parts' MinSearch_init)
        as (m2 & Hm2 & [[_ Hnone]|(p' & sp' & Hp' & Htr')]);
        replace m2 with ms' in * by congruence.
      + destruct (Hnone eq_refl p); [by rewrite <- Hperm|].
        apply active_getStepPair. rewrite <- Hcl. destruct Htr as [-> _]. eauto.
      + rewrite (selected_by_distance dir tol cl ms p sp q Hplane Htr).
        rewrite (selected_by_distance dir tol cl' ms' p' sp' q Hplane Htr').
        rewrite <- Hcl. destruct (getStepPair q _) as [sq|]; [|done].
        rewrite (within_tolerance_Qeq _ (min_dist ms) (min_dist ms')); [done|].
        destruct (find_min_lower_bound _ _ _ _ _ Hids Hms) as [_ Hlow].
        destruct (find_min_lower_bound _ _ _ _ _ Hids' Hms') as [_ Hlow'].
        destruct Htr as (Hsp & _ & _ & Hd). destruct Htr' as (Hsp' & _ & _ & Hd').
        apply Qle_antisym.
        * rewrite Hd'. apply (Hlow p' sp'); [by rewrite Hperm|by rewrite Hcl].
        * rewrite Hd. apply (Hlow' p sp); [by rewrite <- Hperm|by rewrite <- Hcl]. }
  split; [split; [done|]|].
  - simpl. unfold grouped.
    rewrite (perPart_ext _ (λ p, option_list (selected tol (min_plane ms') cl' p)))
      by (intros q Hq; by rewrite Hsel).
    unfold perPart. by apply Permutation_flat_map.
  - intros k. destruct (decide (k ∈ getId <$> parts)) as [Hk|Hk].
    + apply list_elem_of_fmap in Hk as (q & -> & Hq).
      rewrite !cursor_advance_in, Hsel, Hcl; try done. by rewrite <- Hperm.
    + rewrite !cursor_advance_notin; try done. by rewrite <- Hperm.
Qed.

Lemma byHeight_loop_perm fuel dir tol parts parts' cl cl' num acc acc' gls :
  (∀ a b, isEqual a b tol = true ↔
          (Qabs (originDistance dir a - originDistance dir b) <= tol)%Q) →
  NoDup (getId <$> parts) →
  (∀ p, p ∈ parts → getId p ≠ QUuid_null) →
  parts ≡ₚ parts' →
  (∀ k, cursor cl k = cursor cl' k) →
  Forall2 same_layer acc acc' →
  byHeight_loop fuel dir tol parts cl num acc = Done gls →
  ∃ gls', byHeight_loop fuel dir tol parts' cl' num acc' = Done gls' ∧
          Forall2 same_layer gls gls'.
Proof.
  intros Hplane Hnd Hids Hperm. revert cl cl' num acc acc'.
  induction fuel as [|fuel IH]; intros cl cl' num acc acc' Hcl Hacc; [done|].
  simpl.
  destruct (byHeight_iteration_perm dir tol parts parts' cl cl' num
              Hplane Hnd Hids Hperm Hcl) as (r & r' & -> & -> & Hlayer & Hcur).
  simpl. rewrite (steps_left_after_perm r.2 r'.2 parts parts' Hperm Hcur).
  assert (Forall2 same_layer (acc ++ [r.1]) (acc' ++ [r'.1])) as Hacc'.
  { apply Forall2_app; [done|]. by constructor. }
  destruct (steps_left_after r'.2 parts').
  - by apply IH.
  - intros [= <-]. eauto.
Qed.

(** X21. By height, when planes are equal within the tolerance exactly when
    their distances along the stacking direction differ by at most the
    tolerance (parts with pairwise distinct non-null ids): handing over the
    parts in another order gives the same schedule, layer by layer, with
    the same sequence indices and the same entries in every layer; only the
    order of the entries within a layer can differ. *)
Theorem byHeight_permutation QT_NO_DEBUG fuel global_sb parts parts' gls :
  kLayerOrdering global_sb = kByHeight →
  (∀ a b, isEqual a b (kLayerGroupingTolerance global_sb) = true ↔
          (Qabs (originDistance (stackingDirection global_sb) a -
                 originDistance (stackingDirection global_sb) b)
           <= kLayerGroupingTolerance global_sb)%Q) →
  NoDup (getId <$> parts) →
  (∀ p, p ∈ parts → getId p ≠ QUuid_null) →
  parts ≡ₚ parts' →
  populateSteps QT_NO_DEBUG fuel global_sb parts = Done gls →
  ∃ gls', populateSteps QT_NO_DEBUG fuel global_sb parts' = Done gls' ∧
          Forall2 same_layer gls gls'.
Proof.
  intros Hm Hplane Hnd Hids Hperm. unfold populateSteps, populateSteps_byHeight.
  rewrite Hm. apply byHeight_loop_perm; try done.
  intros k. by rewrite !cursor_init.
Qed.

End SchedulerOrderFacts.

Module ParallelPlanesOrderFacts.

Import ParallelPlanes ParallelPlanesFacts.

#[local] Open Scope Q_scope.

Lemma populateSteps_indices_witness :
  ∃ gls,
    populateSteps false 6 (settings kByHeight 0) [partA; partB] = Done gls ∧
    ∀ i gl, gls !! i = Some gl → m_layer_index gl = i.
Proof.
  eexists. split; [vm_compute; reflexivity|].
  apply (populateSteps_indices false 6 (settings kByHeight 0) [partA; partB]).
  vm_compute. reflexivity.
Defined.

Lemma populateSteps_at_least_max_witness :
  ∃ gls,
    populateSteps false 6 (settings kByHeight 0) [partA; partB] = Done gls ∧
    ∀ p, p ∈ [partA; partB] → (countStepPairs p ≤ length gls)%nat.
Proof.
  eexists. split; [vm_compute; reflexivity|].
  apply (populateSteps_at_least_max false 6 (settings kByHeight 0) [partA; partB]
           _ I (ids_distinct [partA; partB] eq_refl)).
  vm_compute. reflexivity.
Defined.

Lemma byHeight_at_most_total_witness :
  ∃ gls,
    populateSteps false 6 (settings kByHeight 0) [partA; partB] = Done gls ∧
    (length gls ≤ sum_list (countStepPairs <$> [partA; partB]))%nat.
Proof.
  eexists. split; [vm_compute; reflexivity|].
  apply (byHeight_at_most_total false 6 (settings kByHeight 0) [partA; partB]
           _ eq_refl (ids_distinct [partA; partB] eq_refl)
           (isEqual_refl 0 (Qle_refl 0))).
  - exists partA. split; [left|]. vm_compute. lia.
  - vm_compute. reflexivity.
Defined.

Lemma part4_part2_aligned : aligned 0 [part4; part2].
Proof.
  intros k p q sp sq Hp Hq.
  apply elem_of_cons in Hp as [->|Hp]; [|apply list_elem_of_singleton in Hp as ->];
  (apply elem_of_cons in Hq as [->|Hq]; [|apply list_elem_of_singleton in Hq as ->]);
  destruct k as [|[|[|[|k]]]]; simpl; intros Hsp Hsq; try discriminate;
  injection Hsp as <-; injection Hsq as <-; vm_compute; reflexivity.
Qed.

Lemma byHeight_aligned_is_byLayerNumber_witness :
  populateSteps false 4 (settings kByHeight 0) [part4; part2] =
    Done (layerAt [part4; part2]
            <$> seq 0 (max_list (countStepPairs <$> [part4; part2]))) ∧
  populateSteps false 4 (settings kByLayerNumber 0) [part4; part2] =
    populateSteps false 4 (settings kByHeight 0) [part4; part2].
Proof.
  apply (byHeight_aligned_is_byLayerNumber false 4 (settings kByHeight 0)
           (settings kByLayerNumber 0) [part4; part2] eq_refl eq_refl
           (ids_distinct [part4; part2] eq_refl) part4_part2_aligned).
  - exists part4. split; [left|]. vm_compute. lia.
  - vm_compute. lia.
Defined.

Lemma part_ascending (id : N) (h : Q) (centres : list Q) :
  (∀ i j ci cj, (i ≤ j)%nat → centres !! i = Some ci → centres !! j = Some cj →
                ci <= cj) →
  ascending tt (part id h centres).
Proof.
  intros Hsorted i j si sj Hij. unfold getStepPair, part. simpl.
  rewrite !list_lookup_fmap.
  intros (ci & Hci & ->)%fmap_Some (cj & Hcj & ->)%fmap_Some.
  pose proof (Hsorted i j ci cj Hij Hci Hcj).
  unfold stepDistance, shiftedPlane. simpl. lra.
Qed.

Lemma partA_partB_ascending :
  ∀ p, p ∈ [partA; partB] → ascending tt p.
Proof.
  intros p Hp.
  apply elem_of_cons in Hp as [->|Hp]; [|apply list_elem_of_singleton in Hp as ->];
    apply part_ascending; intros i j ci cj Hij;
    destruct i as [|[|[|i]]]; destruct j as [|[|[|j]]]; simpl;
    intros Hi Hj; try discriminate; try lia;
    injection Hi as <-; injection Hj as <-; vm_compute; discriminate.
Qed.

Lemma byHeight_layers_ascend_witness :
  ∃ gls,
    populateSteps false 6 (settings kByHeight 0) [partA; partB] = Done gls ∧
    ∀ i j gi gj ej,
      (i < j)%nat → gls !! i = Some gi → gls !! j = Some gj →
      ej ∈ getStepPairs gj →
      ∃ ei, ei ∈ getStepPairs gi ∧ stepDistance tt ei.2 <= stepDistance tt ej.2.
Proof.
  eexists. split; [vm_compute; reflexivity|].
  apply (byHeight_layers_ascend false 6 (settings kByHeight 0) [partA; partB]
           _ eq_refl (ids_distinct [partA; partB] eq_refl)
           (ids_not_null [partA; partB] eq_refl)
           (isEqual_refl 0 (Qle_refl 0)) partA_partB_ascending).
  vm_compute. reflexivity.
Defined.

Lemma byHeight_permutation_witness :
  ∃ gls,
    populateSteps false 6 (settings kByHeight 0) [partA; partB] = Done gls ∧
    ∃ gls',
      populateSteps false 6 (settings kByHeight 0) [partB; partA] = Done gls' ∧
      Forall2 same_layer gls gls'.
Proof.
  eexists. split; [vm_compute; reflexivity|].
  apply (byHeight_permutation false 6 (settings kByHeight 0) [partA; partB]
           [partB; partA] _ eq_refl (isEqual_spec 0)
           (ids_distinct [partA; partB] eq_refl)
           (ids_not_null [partA; partB] eq_refl)
           (perm_swap partB partA [])).
  vm_compute. reflexivity.
Defined.

End ParallelPlanesOrderFacts.

(** * Properties of infill sectors *)

Module InfillSectorFacts.

Import InfillSector.

Section RegionFacts.

Context `{T : Toolkit}.

Implicit Types (line : Polyline) (sector : list Polyline) (sb : RegionSettings).

(** ** uniform *)

Lemma uniform_loop_length fuel i sector :
  length (uniform_loop fuel i sector) = length sector.
Proof.
  revert i sector. induction fuel as [|fuel IH]; intros i sector; simpl; [done|].
  destruct (decide _); [|done]. by rewrite IH, length_alter.
Qed.

Lemma uniform_loop_lookup fuel i sector j :
  Nat.odd i = true → length sector ≤ i + 2 * fuel →
  uniform_loop fuel i sector !! j =
  if (i <=? j) && Nat.odd j then Polyline_reverse <$> sector !! j else sector !! j.
Proof.
  revert i sector. induction fuel as [|fuel IH]; intros i sector Hodd Hfuel; simpl.
  - destruct ((i <=? j) && Nat.odd j) eqn:Hc; [|done].
    apply andb_true_iff in Hc as [Hij%Nat.leb_le _].
    by rewrite (proj2 (lookup_ge_None sector j)) by lia.
  - destruct (decide (i < length sector)) as [Hlt|Hge].
    + rewrite IH; [|by rewrite Nat.odd_add, Hodd|rewrite length_alter; lia].
      destruct (decide (j = i)) as [->|Hne].
      * rewrite list_lookup_alter_eq, Nat.leb_refl, Hodd. simpl.
        by replace (i + 2 <=? i) with false by (symmetry; apply Nat.leb_gt; lia).
      * rewrite list_lookup_alter_ne by done.
        destruct (decide (j = i + 1)) as [->|Hne'].
        -- replace (Nat.odd (i + 1)) with false.
           { by rewrite !andb_false_r. }
           rewrite Nat.odd_add, Hodd. done.
        -- replace (i + 2 <=? j) with (i <=? j); [done|].
           destruct (Nat.leb_spec i j), (Nat.leb_spec (i + 2) j); try done; lia.
    + destruct ((i <=? j) && Nat.odd j) eqn:Hc; [|done].
      apply andb_true_iff in Hc as [Hij%Nat.leb_le _].
      by rewrite (proj2 (lookup_ge_None sector j)) by lia.
Qed.

Lemma uniform_length sector : length (uniform sector) = length sector.
Proof. apply uniform_loop_length. Qed.

Lemma uniform_at sector j :
  uniform sector !! j =
  if Nat.odd j then Polyline_reverse <$> sector !! j else sector !! j.
Proof.
  unfold uniform. rewrite uniform_loop_lookup by (try done; lia).
  destruct j as [|j]; [done|]. done.
Qed.

(** X6. [uniform] keeps the number of lines of the sector, leaves the lines
    at even positions as they are and replaces every line at an odd
    position by its reverse. *)
Theorem uniform_lookup sector :
  length (uniform sector) = length sector ∧
  ∀ j, uniform sector !! j =
       if Nat.odd j then Polyline_reverse <$> sector !! j else sector !! j.
Proof. split; [apply uniform_length|apply uniform_at]. Qed.

(** X7. When reversing a line twice gives the line back, applying [uniform]
    twice gives the sector back. *)
Theorem uniform_involutive sector :
  (∀ line, Polyline_reverse (Polyline_reverse line) = line) →
  uniform (uniform sector) = sector.
Proof.
  intros Hinv. apply list_eq. intros j.
  rewrite !uniform_at.
  destruct (Nat.odd j); [|done].
  destruct (sector !! j) as [line|]; simpl; [|done]. by rewrite Hinv.
Qed.

(** ** createPath *)

(** ** createPath *)

Lemma createPath_omap sb line :
  createPath sb line = omap (segmentAt sb line) (seq 0 (length line - 1)).
Proof.
  unfold createPath. generalize (seq 0 (length line - 1)). intros l.
  assert (∀ acc,
    fold_left (λ newPath i, match segmentAt sb line i with
                            | Some segment => newPath ++ [segment]
                            | None => newPath
                            end) l acc =
    acc ++ omap (segmentAt sb line) l) as H; [|apply H].
  induction l as [|i l IH]; intros acc; csimpl; [by rewrite app_nil_r|].
  rewrite IH. destruct (segmentAt sb line i); [|done]. by rewrite <- app_assoc.
Qed.

Lemma segmentAt_Some sb line i seg :
  segmentAt sb line i = Some seg ↔
  ∃ a b, line !! i = Some a ∧ line !! (i + 1) = Some b ∧ seg = infillSegment sb a b.
Proof.
  unfold segmentAt. split.
  - destruct (line !! i) as [a|]; [|done]. destruct (line !! (i + 1)) as [b|]; [|done].
    intros [= <-]. eauto.
  - by intros (a & b & -> & -> & ->).
Qed.

Lemma segmentAt_is_Some sb line i :
  i < length line - 1 → is_Some (segmentAt sb line i).
Proof.
  intros Hi. destruct (lookup_lt_is_Some_2 line i) as [a Ha]; [lia|].
  destruct (lookup_lt_is_Some_2 line (i + 1)) as [b Hb]; [lia|].
  unfold segmentAt. rewrite Ha, Hb. eauto.
Qed.

Lemma omap_seq_lookup {A : Type} (f : nat → option A) n i :
  (∀ j, j < n → is_Some (f j)) →
  omap f (seq 0 n) !! i = if decide (i < n) then f i else None.
Proof.
  induction n as [|n IH]; intros Hf; [done|].
  rewrite seq_S, omap_app. simpl.
  assert (length (omap f (seq 0 n)) = n) as Hlen.
  { clear IH. assert (∀ a, (∀ j, a ≤ j < a + n → is_Some (f j)) →
                        length (omap f (seq a n)) = n) as H.
    { clear. induction n as [|n IH]; intros a Hf; csimpl; [done|].
      destruct (Hf a) as [x ->]; [lia|]. simpl. rewrite IH; [done|].
      intros j Hj. apply Hf. lia. }
    apply H. intros j Hj. apply Hf. lia. }
  destruct (Hf n) as [x Hx]; [lia|]. rewrite Hx. simpl.
  destruct (decide (i < n)) as [Hlt|Hge].
  - rewrite lookup_app_l by lia. rewrite IH by (intros; apply Hf; lia).
    by rewrite !decide_True by lia.
  - rewrite lookup_app_r by lia. rewrite Hlen.
    destruct (decide (i = n)) as [->|Hne].
    + rewrite Nat.sub_diag, decide_True by lia. done.
    + rewrite decide_False by lia.
      by replace (i - n) with (S (i - n - 1)) by lia.
Qed.

Lemma createPath_lookup sb line i :
  createPath sb line !! i = segmentAt sb line i.
Proof.
  rewrite createPath_omap, omap_seq_lookup by apply segmentAt_is_Some.
  destruct (decide _) as [|Hge]; [done|].
  unfold segmentAt. destruct (line !! i); [|done].
  by rewrite (proj2 (lookup_ge_None line (i + 1))) by lia.
Qed.

Lemma createPath_length sb line : length (createPath sb line) = length line - 1.
Proof.
  destruct (decide (length (createPath sb line) < length line - 1)) as [Hlt|Hge].
  - destruct (segmentAt_is_Some sb line (length (createPath sb line)) Hlt) as [x Hx].
    rewrite <- createPath_lookup in Hx. apply lookup_lt_Some in Hx. lia.
  - destruct (decide (length line - 1 < length (createPath sb line))) as [Hgt|]; [|lia].
    apply lookup_lt_is_Some_2 in Hgt as [x Hx]. rewrite createPath_lookup in Hx.
    apply segmentAt_Some in Hx as (a & b & _ & Hb%lookup_lt_Some & _). lia.
Qed.

(** X8. [createPath] makes one segment for every pair of consecutive points:
    a line of [n] points gives [n - 1] segments (none for an empty or
    one-point line), and the segment at position [i] runs from point [i] to
    point [i + 1] and carries the bead width, layer height, speed,
    acceleration and extruder speed of the region and the infill region
    type. *)
Theorem createPath_segments sb line :
  length (createPath sb line) = length line - 1 ∧
  ∀ i seg,
    createPath sb line !! i = Some seg ↔
    ∃ a b, line !! i = Some a ∧ line !! (i + 1) = Some b ∧
           seg = {| seg_start := a; seg_end := b; seg_sb := infillSettings sb |}.
Proof.
  split; [apply createPath_length|]. intros i seg.
  rewrite createPath_lookup. apply segmentAt_Some.
Qed.

Lemma createPath_chain sb line i s1 s2 :
  createPath sb line !! i = Some s1 →
  createPath sb line !! (i + 1) = Some s2 →
  seg_end s1 = seg_start s2.
Proof.
  rewrite !createPath_lookup.
  intros (a & b & _ & Hb & ->)%segmentAt_Some (b' & c & Hb' & _ & ->)%segmentAt_Some.
  simpl. congruence.
Qed.

(** X9. The path that [createPath] makes is connected and spans the line:
    every segment starts where the segment before it ends, the first
    segment starts at the first point of the line and the last segment ends
    at its last point. *)
Theorem createPath_connected sb line :
  (∀ i s1 s2,
     createPath sb line !! i = Some s1 → createPath sb line !! (i + 1) = Some s2 →
     seg_end s1 = seg_start s2) ∧
  (∀ s, head (createPath sb line) = Some s → head line = Some (seg_start s)) ∧
  (∀ s, last (createPath sb line) = Some s → last line = Some (seg_end s)).
Proof.
  split_and!.
  - apply createPath_chain.
  - intros s. rewrite !head_lookup, createPath_lookup.
    by intros (a & b & Ha & _ & ->)%segmentAt_Some.
  - intros s. rewrite !last_lookup, createPath_length, createPath_lookup.
    intros (a & b & Ha & Hb & ->)%segmentAt_Some. simpl.
    rewrite <- Hb. f_equal. apply lookup_lt_Some in Hb. lia.
Qed.

(** ** compute *)

Lemma orient_loop_length center start_vec (lines done oriented : list Polyline) :
  for_each (λ done line, line' ← orient center start_vec line; Done (done ++ [line']))
    lines done = Done oriented →
  length oriented = length done + length lines.
Proof.
  revert done. induction lines as [|line lines IH]; intros done; simpl.
  - intros [= <-]. lia.
  - destruct (orient center start_vec line); simpl; [|done..].
    intros ->%IH. rewrite length_app. simpl. lia.
Qed.

(** X10. When [compute] returns, the region has exactly one path for every
    line of the geometry it worked on (the lines the generator of the
    pattern returned or, when no case of the switch applies, the lines left
    in [m_computed_geometry]); the paths it had before are gone, and its
    settings, geometry, sector angle and start vector are unchanged. *)
Theorem compute_paths_count (s s' : Sector) :
  compute s = Done s' →
  length (m_paths s') = length (default (m_computed_geometry s) (generate s)) ∧
  length (m_computed_geometry s') = length (m_paths s') ∧
  m_sb s' = m_sb s ∧ m_geometry s' = m_geometry s ∧
  m_sector_angle s' = m_sector_angle s ∧ m_start_vec s' = m_start_vec s.
Proof.
  unfold compute. intros (oriented & Hor & (_ & _ & [= <-])%bind_Done)%bind_Done.
  simpl. apply orient_loop_length in Hor. simpl in Hor.
  rewrite length_fmap, uniform_length, length_reverse.
  by split_and!.
Qed.

(** X11. Every path of a region that [compute] returned is a connected chain
    of segments, each carrying the infill settings of the region. *)
Theorem compute_paths_connected (s s' : Sector) :
  compute s = Done s' →
  ∀ path, path ∈ m_paths s' →
    (∀ i s1 s2, path !! i = Some s1 → path !! (i + 1) = Some s2 →
                seg_end s1 = seg_start s2) ∧
    (∀ seg, seg ∈ path → seg_sb seg = infillSettings (m_sb s)).
Proof.
  unfold compute. intros (oriented & Hor & (_ & _ & [= <-])%bind_Done)%bind_Done.
  simpl. intros path (line & -> & _)%list_elem_of_fmap. split.
  - apply createPath_chain.
  - intros seg (i & Hi)%list_elem_of_lookup. rewrite createPath_lookup in Hi.
    by apply segmentAt_Some in Hi as (a & b & _ & _ & ->).
Qed.

(** X12. For a pattern that the switch of [compute] knows, computing again
    changes nothing: [compute] on its own result returns that result. *)
Theorem compute_idempotent (s s' : Sector) :
  is_Some (generate s) →
  compute s = Done s' →
  compute s' = Done s'.
Proof.
  intros [g Hg] Hs. unfold compute in Hs. rewrite Hg in Hs. simpl in Hs.
  apply bind_Done in Hs as (oriented & Hor & ([] & Hcheck & [= <-])%bind_Done).
  set (s' := {| m_sb := m_sb s; m_geometry := m_geometry s;
                m_computed_geometry := uniform (reverse oriented);
                m_paths := createPath (m_sb s) <$> uniform (reverse oriented);
                m_sector_angle := m_sector_angle s;
                m_start_vec := m_start_vec s |}).
  assert (generate s' = Some g) as Hg' by (by rewrite <- Hg).
  unfold compute. rewrite Hg'. simpl. rewrite Hor. simpl. by rewrite Hcheck.
Qed.

(** ** writeGCode *)

(** X13. When the generator of the pattern returns no line, [compute]
    returns a region without paths, and [writeGCode] of that region is
    exactly the writer's empty step. *)
Theorem writeGCode_empty_pattern (s : Sector) :
  generate s = Some [] →
  ∃ s', compute s = Done s' ∧ m_paths s' = [] ∧
        ∀ segment_writeGCode, writeGCode segment_writeGCode s' = writeEmptyStep.
Proof.
  intros Hg. unfold compute. rewrite Hg. simpl. eexists. split; [done|]. done.
Qed.

End RegionFacts.

Import Toy.

Lemma uniform_involutive_witness :
  uniform (T := toolkit) (uniform (T := toolkit) [[1; 2]; [3; 4; 5]; [6]; [7; 8]]%Z)
  = [[1; 2]; [3; 4; 5]; [6]; [7; 8]]%Z.
Proof.
  apply (uniform_involutive (T := toolkit) [[1; 2]; [3; 4; 5]; [6]; [7; 8]]%Z).
  intros line. apply reverse_involutive.
Defined.

Lemma createPath_connected_witness :
  ∃ s1 s2,
    createPath (T := toolkit) (settings kLines) [1; 2; 3]%Z !! 0 = Some s1 ∧
    createPath (T := toolkit) (settings kLines) [1; 2; 3]%Z !! 1 = Some s2 ∧
    seg_end s1 = seg_start s2.
Proof.
  eexists _, _. split; [reflexivity|]. split; [reflexivity|].
  apply (proj1 (createPath_connected (T := toolkit) (settings kLines) [1; 2; 3]%Z) 0);
    reflexivity.
Defined.

Lemma compute_paths_count_witness :
  ∃ s',
    compute (sector kLines) = Done s' ∧
    length (m_paths s') = 3 ∧
    length (m_computed_geometry s') = length (m_paths s').
Proof.
  eexists. split; [vm_compute; reflexivity|].
  destruct (compute_paths_count (sector kLines) _ eq_refl) as (H1 & H2 & _).
  exact (conj H1 H2).
Defined.

Lemma compute_paths_connected_witness :
  ∃ s',
    compute (sector kLines) = Done s' ∧
    ∀ path, path ∈ m_paths s' →
      (∀ i s1 s2, path !! i = Some s1 → path !! (i + 1) = Some s2 →
                  seg_end s1 = seg_start s2) ∧
      (∀ seg, seg ∈ path → seg_sb seg = infillSettings (settings kLines)).
Proof.
  eexists. split; [vm_compute; reflexivity|].
  apply (compute_paths_connected (sector kLines)). vm_compute. reflexivity.
Defined.

Lemma compute_idempotent_witness :
  ∃ s', compute (sector kLines) = Done s' ∧ compute s' = Done s'.
Proof.
  eexists. split; [vm_compute; reflexivity|].
  apply (compute_idempotent (sector kLines)).
  - eexists. reflexivity.
  - vm_compute. reflexivity.
Defined.

Lemma writeGCode_empty_pattern_witness :
  ∃ s', compute (sector kGrid) = Done s' ∧ m_paths s' = [] ∧
        ∀ segment_writeGCode, writeGCode segment_writeGCode s' = writeEmptyStep.
Proof. apply (writeGCode_empty_pattern (sector kGrid)). reflexivity. Defined.

End InfillSectorFacts.

(** * Properties of the printer control panel *)

Module PrinterControlFacts.

Import PrinterControl.

Lemma click_inputs slot w :
  m_xInput (click slot w) = m_xInput w ∧
  m_yInput (click slot w) = m_yInput w ∧
  m_zInput (click slot w) = m_zInput w.
Proof. by destruct slot. Qed.

Lemma click_log slot w :
  m_logDisplay (click slot w) =
  m_logDisplay w
  ++ ("Printer executed command: " +:+ command_of slot w) :: status_of slot.
Proof. destruct slot; simpl; by rewrite <- ?app_assoc. Qed.

Lemma command_of_inputs slot w w' :
  m_xInput w' = m_xInput w → m_yInput w' = m_yInput w → m_zInput w' = m_zInput w →
  command_of slot w' = command_of slot w.
Proof. intros Hx Hy Hz. destruct slot; simpl; congruence. Qed.

(** X14. Whatever buttons are clicked, in whatever order, the three input
    texts stay as they are and the log only grows: after the clicks it is
    the old log followed, for every click in order, by the printer's
    response to the command of that button ("Printer executed command: "
    and the command, which for a move is "G1 X", "G1 Y" or "G1 Z" followed
    by the input text as it is) and then, for start and stop, by the status
    line. *)
Theorem clicks_log (slots : list Slot) (w : Widget) :
  let w' := fold_left (λ w slot, click slot w) slots w in
  m_xInput w' = m_xInput w ∧ m_yInput w' = m_yInput w ∧ m_zInput w' = m_zInput w ∧
  m_logDisplay w' =
  m_logDisplay w
  ++ flat_map
       (λ slot, ("Printer executed command: " +:+ command_of slot w) :: status_of slot)
       slots.
Proof.
  revert w. induction slots as [|slot slots IH]; intros w; simpl.
  - by rewrite app_nil_r.
  - destruct (IH (click slot w)) as (Hx & Hy & Hz & Hlog).
    destruct (click_inputs slot w) as (Hx' & Hy' & Hz').
    split_and!; try congruence.
    rewrite Hlog, click_log, <- app_assoc. f_equal. simpl. do 2 f_equal.
    apply flat_map_ext. intros s. by rewrite (command_of_inputs s w (click slot w)).
Qed.

(** Every remainder that [qrand() % 6000] can have for a non-negative
    [qrand()], tried one by one. *)
Lemma temperature_in_range_all :
  forallb temperature_in_range (map Z.of_nat (seq 0 (Z.to_nat 6000))) = true.
Proof. vm_compute. reflexivity. Qed.

(** X15. For every value that [qrand()] can return (it is never negative),
    the temperature that [getHardwareTemperature] reports, computed in
    [double] as the source does, is a finite number, at least 20 and below
    80, and within 10^-13 of 20 plus [qrand() % 6000] hundredths. (It need
    not be that sum exactly, nor at most 79.99: the division and the
    addition round.) *)
Theorem getHardwareTemperature_range (qrand : Z) :
  (0 ≤ qrand)%Z →
  ∃ t : Q,
    double_value (getHardwareTemperature qrand) = Some t ∧
    (20 <= t)%Q ∧ (t < 80)%Q ∧
    (Qabs (t - (20 + inject_Z (Z.rem qrand 6000) / 100)) <= 1 # 10000000000000)%Q.
Proof.
  intros Hq.
  pose proof (Z.rem_bound_pos qrand 6000 Hq ltac:(lia)) as Hk.
  assert (getHardwareTemperature qrand = getHardwareTemperature (Z.rem qrand 6000))
    as ->.
  { unfold getHardwareTemperature. by rewrite (Z.rem_small (Z.rem qrand 6000) 6000). }
  generalize dependent (Z.rem qrand 6000). intros r Hk.
  assert (temperature_in_range r = true) as Hok.
  { pose proof temperature_in_range_all as Hall.
    rewrite forallb_forall in Hall. apply Hall.
    apply in_map_iff. exists (Z.to_nat r). split; [lia|]. apply in_seq. lia. }
  unfold temperature_in_range in Hok.
  destruct (double_value (getHardwareTemperature r)) as [t|]; [|done].
  apply andb_true_iff in Hok as [Hok Hnear].
  apply andb_true_iff in Hok as [Hlow Hhigh].
  exists t. split_and!; [done|by apply Qle_bool_iff| |by apply Qle_bool_iff].
  apply Qnot_le_lt. intros Hle. apply Qle_bool_iff in Hle.
  rewrite Hle in Hhigh. done.
Qed.

Lemma clicks_log_witness :
  m_logDisplay
    (fold_left (λ w slot, click slot w) [MoveX; StartPrint]
       {| m_xInput := "10"; m_yInput := ""; m_zInput := ""; m_logDisplay := [] |}) =
  ["Printer executed command: G1 X10"; "Printer executed command: M140 S60";
   "Starting print..."]%string.
Proof.
  apply (clicks_log [MoveX; StartPrint]
           {| m_xInput := "10"; m_yInput := ""; m_zInput := ""; m_logDisplay := [] |}).
Defined.

(** At the remainder 5999 the reported temperature lies above 79.99. *)
Lemma getHardwareTemperature_range_witness :
  ∃ t : Q,
    double_value (getHardwareTemperature 5999) = Some t ∧
    (20 <= t)%Q ∧ (t < 80)%Q ∧ (7999 # 100 < t)%Q.
Proof.
  destruct (getHardwareTemperature_range 5999 ltac:(lia)) as (t & Ht & H1 & H2 & _).
  exists t. split_and!; [exact Ht|exact H1|exact H2|].
  vm_compute in Ht. injection Ht as <-. reflexivity.
Defined.

End PrinterControlFacts.

(** * Properties of the mesh loader *)

Module MeshLoaderFacts.

Import MeshLoader.

Section LoaderFacts.

Context `{E : Env}.

Implicit Types (st : LoopState) (scene : list aiMesh) (m : aiMesh).

Lemma loadable_cons m scene :
  loadable (m :: scene) =
  if decide (0 < mNumFaces m ∧ 0 < mNumVertices m) then m :: loadable scene
  else loadable scene.
Proof. unfold loadable. rewrite filter_cons. by destruct (decide _). Qed.

(** The loop appends one mesh for every loadable mesh of the scene and
    counts them. *)
Lemma load_fold fp mt unit fd n scene st :
  let st' := fold_left (loadMesh fp mt unit fd n) scene st in
  num_models_added st' = num_models_added st + length (loadable scene) ∧
  ∃ new, loaded_meshes st' = loaded_meshes st ++ new ∧
         length new = length (loadable scene).
Proof.
  revert st. induction scene as [|m scene IH]; intros st; simpl.
  - split; [lia|]. exists []. by rewrite app_nil_r.
  - rewrite loadable_cons. unfold loadMesh at 2 4.
    destruct (decide (0 < mNumFaces m ∧ 0 < mNumVertices m)).
    + match goal with |- context [fold_left _ scene ?st1] =>
        destruct (IH st1) as (Hnum & new & Hnew & Hlen) end.
      simpl in *. split; [lia|]. eexists (_ :: new). split.
      * rewrite Hnew, <- app_assoc. done.
      * simpl. lia.
    + apply IH.
Qed.

Lemma load_fold_lookup fp mt unit fd n scene st i md :
  loaded_meshes (fold_left (loadMesh fp mt unit fd n) scene st)
    !! (length (loaded_meshes st) + i) = Some md →
  ∃ m, loadable scene !! i = Some m ∧
       mesh_body (mesh md) = meshBody m ∧
       mesh_name (mesh md) = meshName fp n (num_models_added st + i) ∧
       mesh_file (mesh md) = fileName fp ∧
       mesh_type (mesh md) = mt ∧
       raw_data md = fd.1 ∧ size md = fd.2.
Proof.
  revert st i. induction scene as [|m scene IH]; intros st i; simpl.
  - rewrite (proj2 (lookup_ge_None _ _)) by lia. done.
  - rewrite loadable_cons. unfold loadMesh at 2.
    destruct (decide (0 < mNumFaces m ∧ 0 < mNumVertices m)); [|apply IH].
    match goal with |- context [fold_left _ scene ?st1] => set (st1' := st1) end.
    destruct i as [|i].
    + destruct (load_fold fp mt unit fd n scene st1') as (_ & new & -> & _).
      unfold st1'. simpl. rewrite <- app_assoc, Nat.add_0_r.
      rewrite lookup_app_r by lia. rewrite Nat.sub_diag. simpl.
      intros [= <-]. exists m. simpl. by rewrite Nat.add_0_r.
    + replace (length (loaded_meshes st) + S i)
        with (length (loaded_meshes st1') + i)
        by (unfold st1'; simpl; rewrite length_app; simpl; lia).
      intros (m' & Hm' & Hbody & Hname & Hrest)%IH.
      exists m'. split_and!; try done; try apply Hrest.
      rewrite Hname. unfold st1'. simpl. f_equal. lia.
Qed.

(** X16. From a scene the loader takes exactly the meshes that have both
    faces and vertices, in their order: there are as many loaded meshes as
    such meshes, and the loaded mesh at position [i] is built from the
    [i]-th of them, has the mesh type and file name of the call and the raw
    data of the file, and is named after the base name of the file,
    followed, when the scene has more than one mesh, by an underscore and
    [i], the number of meshes loaded before it. *)
Theorem loadScene_meshes fp mt t0 unit fd scene :
  length (loadScene fp mt t0 unit fd scene) = length (loadable scene) ∧
  ∀ i md,
    loadScene fp mt t0 unit fd scene !! i = Some md →
    ∃ m, loadable scene !! i = Some m ∧
         mesh_body (mesh md) = meshBody m ∧
         mesh_name (mesh md) =
           (if decide (1 < length scene)
            then baseName fp +:+ "_" +:+ QString_number i else baseName fp) ∧
         mesh_file (mesh md) = fileName fp ∧
         mesh_type (mesh md) = mt ∧
         raw_data md = fd.1 ∧ size md = fd.2.
Proof.
  unfold loadScene. split.
  - match goal with |- context [fold_left ?f scene ?st0] =>
      destruct (load_fold fp mt unit fd (length scene) scene st0)
        as (_ & new & -> & Hlen) end.
    done.
  - intros i md Hi.
    match type of Hi with context [fold_left ?f scene ?st0] =>
      apply (load_fold_lookup fp mt unit fd (length scene) scene st0 i md) in Hi end.
    done.
Qed.

(** X17. When the scene has more than one mesh and [QString::number] gives
    different texts for different numbers, the loaded meshes have pairwise
    different names. *)
Theorem loadScene_names_distinct fp mt t0 unit fd scene :
  1 < length scene →
  (∀ i j, QString_number i = QString_number j → i = j) →
  NoDup ((λ md, mesh_name (mesh md)) <$> loadScene fp mt t0 unit fd scene).
Proof.
  intros Hmany Hinj. apply NoDup_alt. intros i j name.
  rewrite !list_lookup_fmap.
  intros (mdi & Hi & ->)%fmap_Some (mdj & Hj & Hname)%fmap_Some.
  unfold loadScene in Hi, Hj.
  match type of Hi with context [fold_left ?f scene ?st0] =>
    apply (load_fold_lookup fp mt unit fd (length scene) scene st0 i mdi) in Hi
      as (_ & _ & _ & Hni & _);
    apply (load_fold_lookup fp mt unit fd (length scene) scene st0 j mdj) in Hj
      as (_ & _ & _ & Hnj & _) end.
  rewrite Hni, Hnj in Hname. unfold meshName in Hname. simpl in Hname.
  rewrite !decide_True in Hname by done.
  apply Hinj. by do 2 apply (inj (String.append _)) in Hname.
Qed.

Lemma nextTransform_fixed unit t m :
  isIdentity t = false → nextTransform unit t m = t.
Proof. unfold nextTransform. by intros ->. Qed.

(** Once the local transform is not the identity, the loop leaves it alone
    and gives it to every mesh it loads, without setting a unit. *)
Lemma load_fold_fixed fp mt unit fd n scene st :
  isIdentity (transform st) = false →
  transform (fold_left (loadMesh fp mt unit fd n) scene st) = transform st ∧
  ∀ i md,
    loaded_meshes (fold_left (loadMesh fp mt unit fd n) scene st)
      !! (length (loaded_meshes st) + i) = Some md →
    mesh_transformation (mesh md) = transform st ∧ mesh_unit (mesh md) = None.
Proof.
  revert st. induction scene as [|m scene IH]; intros st Hfix; simpl.
  - split; [done|]. intros i md. by rewrite (proj2 (lookup_ge_None _ _)) by lia.
  - unfold loadMesh at 2 4.
    destruct (decide (0 < mNumFaces m ∧ 0 < mNumVertices m)); [|by apply IH].
    rewrite nextTransform_fixed, Hfix by done.
    match goal with |- context [fold_left _ scene ?st1] => set (st1' := st1) end.
    destruct (IH st1' Hfix) as [Ht Hall]. split; [done|]. intros [|i] md.
    + destruct (load_fold fp mt unit fd n scene st1') as (_ & new & -> & _).
      unfold st1'. simpl. rewrite <- app_assoc, Nat.add_0_r.
      rewrite lookup_app_r by lia. rewrite Nat.sub_diag. simpl.
      by intros [= <-].
    + replace (length (loaded_meshes st) + S i)
        with (length (loaded_meshes st1') + i)
        by (unfold st1'; simpl; rewrite length_app; simpl; lia).
      apply Hall.
Qed.

(** X18. When the transform handed to the loader is not the identity, every
    loaded mesh gets exactly that transform, and the unit is set on none of
    them. *)
Theorem loadScene_given_transform fp mt t0 unit fd scene :
  isIdentity t0 = false →
  ∀ md, md ∈ loadScene fp mt t0 unit fd scene →
        mesh_transformation (mesh md) = t0 ∧ mesh_unit (mesh md) = None.
Proof.
  intros Hfix md (i & Hi)%list_elem_of_lookup. unfold loadScene in Hi.
  match type of Hi with context [fold_left ?f scene ?st0] =>
    by apply (proj2 (load_fold_fixed fp mt unit fd (length scene) scene st0 Hfix) i md)
  end.
Qed.



Lemma loadScene_nil_iff fp mt t0 unit fd scene :
  loadScene fp mt t0 unit fd scene = [] ↔ loadable scene = [].
Proof.
  unfold loadScene.
  match goal with |- context [fold_left ?f scene ?st0] =>
    destruct (load_fold fp mt unit fd (length scene) scene st0)
      as (_ & new & -> & Hlen) end.
  simpl. split; intros H; apply length_zero_iff_nil;
    apply length_zero_iff_nil in H; lia.
Qed.

(** The scene that [run] gets to see, if any. *)
Lemma LoadMeshes_from_file fp mt t0 unit :
  LoadMeshes fp mt t0 unit 0 0 =
  match (if file_exists fp
         then importScene (suffix fp) (LoadRawData (absoluteFilePath fp))
         else None) with
  | Some scene => loadScene fp mt t0 unit (LoadRawData (absoluteFilePath fp)) scene
  | None => []
  end.
Proof.
  unfold LoadMeshes. rewrite decide_True by (by left).
  by destruct (file_exists fp).
Qed.

(** X20. [run] emits the error signal, and nothing else, exactly when no mesh
    was loaded: the file does not exist, the importer returns no scene, or
    no mesh of the scene has both faces and vertices. Otherwise it emits no
    error and one [newMesh] signal for every such mesh, in order. *)
Theorem run_signals fp mt t0 unit :
  let scene :=
    if file_exists fp
    then importScene (suffix fp) (LoadRawData (absoluteFilePath fp))
    else None in
  ((scene = None ∨ ∃ meshes, scene = Some meshes ∧ loadable meshes = []) →
   run fp mt t0 unit = [error ("Error importing mesh: " +:+ fileName fp)]) ∧
  (∀ meshes, scene = Some meshes → loadable meshes ≠ [] →
   run fp mt t0 unit =
     newMesh <$> loadScene fp mt t0 unit (LoadRawData (absoluteFilePath fp)) meshes ∧
   length (run fp mt t0 unit) = length (loadable meshes)).
Proof.
  intros scene. unfold run. rewrite LoadMeshes_from_file. fold scene. split.
  - intros [->|(meshes & -> & Hnone)]; [done|].
    by rewrite (proj2 (loadScene_nil_iff _ _ _ _ _ _) Hnone).
  - intros meshes -> Hsome.
    destruct (loadScene fp mt t0 unit _ meshes) as [|md mds] eqn:Hload.
    { by apply loadScene_nil_iff in Hload. }
    split; [done|]. simpl. rewrite length_fmap.
    change (S (length mds)) with (length (md :: mds)). rewrite <- Hload.
    unfold loadScene.
    match goal with |- context [fold_left ?f meshes ?st0] =>
      destruct (load_fold fp mt unit (LoadRawData (absoluteFilePath fp))
                  (length meshes) meshes st0) as (_ & new & -> & Hlen) end.
    done.
Qed.

End LoaderFacts.

Import Toy.

#[local] Open Scope Q_scope.

Lemma loadScene_meshes_witness :
  ∃ md,
    loadScene (E := env) "part.stl" tt 1 1000 (1%N, 100%N) [(12, 8); (0, 5); (4, 4)]%nat !! 1%nat
      = Some md ∧
    mesh_name (mesh md) = "part_1"%string ∧
    mesh_body (mesh md) = meshBody (E := env) (4, 4)%nat.
Proof.
  eexists. split; [vm_compute; reflexivity|].
  destruct (proj2 (loadScene_meshes (E := env) "part.stl" tt 1 1000 (1%N, 100%N)
                     [(12, 8); (0, 5); (4, 4)]%nat) 1%nat _ eq_refl)
    as (m & Hm & Hbody & Hname & _).
  injection Hm as <-. exact (conj Hname Hbody).
Defined.

Lemma loadScene_names_distinct_witness :
  NoDup ((λ md, mesh_name (mesh md))
           <$> loadScene (E := env) "part.stl" tt 1 1000 (1%N, 100%N)
                 [(12, 8); (0, 5); (4, 4)]%nat).
Proof.
  apply (loadScene_names_distinct (E := env) "part.stl" tt 1 1000 (1%N, 100%N)
           [(12, 8); (0, 5); (4, 4)]%nat).
  - simpl. lia.
  - intros i j Hij. exact (pretty_nat_inj i j Hij).
Defined.

Lemma loadScene_given_transform_witness :
  ∃ md,
    loadScene (E := env) "part.stl" tt 2 1000 (1%N, 100%N) [(12, 8); (0, 5); (4, 4)]%nat !! 1%nat
      = Some md ∧
    mesh_transformation (mesh md) = 2 ∧ mesh_unit (mesh md) = None.
Proof.
  eexists. split; [vm_compute; reflexivity|].
  apply (loadScene_given_transform (E := env) "part.stl" tt 2 1000 (1%N, 100%N)
           [(12, 8); (0, 5); (4, 4)]%nat eq_refl).
  apply (list_elem_of_lookup_2 _ 1%nat). vm_compute. reflexivity.
Defined.


Lemma run_signals_witness :
  length (run (E := env) "part.stl" tt 1 1000) = 2%nat.
Proof.
  destruct (proj2 (run_signals (E := env) "part.stl" tt 1 1000)
              [(12, 8); (0, 5); (4, 4)]%nat eq_refl) as [_ Hlen].
  - discriminate.
  - exact Hlen.
Defined.

End MeshLoaderFacts.
